(** * Verification of knative client-contrib, admin plugin

    Two parts of [plugins/admin/pkg/command] are covered:

    - [registry/remove.go]: the [registry remove] command
      ([NewRegistryRmCommand], its [PreRunE] and [RunE] closures) and the
      concurrent bulk delete [deleteSecrets];
    - [profiling/downloader_test.go]: the scenarios exercised against
      [Downloader.Download].

    The Kubernetes client, the JSON decoder and the HTTP transport are
    collaborators: they appear as interfaces (a type class, section
    variables) and every theorem holds for all their implementations. *)

From stdpp Require Import base strings gmap list.
From Stdlib Require Import ZArith DecimalString.

(** Text helpers shared by both packages. *)

(** [Contains s sub]: [sub] occurs in [s] (what [assert.ErrorContains]
    checks on an error message). *)
Definition Contains (s sub : string) : Prop :=
  ∃ pre post : string, s = pre +:+ sub +:+ post.

(** The line terminator written by the format strings. *)
Definition LF : string := String (Ascii.ascii_of_nat 10) EmptyString.

(* ================================================================== *)
(** * Package registry: [remove.go] *)
(* ================================================================== *)

Module Registry.

(** ** Data model (the parts of the Kubernetes API objects the command touches) *)

(** [corev1.Secret] *)
Record Secret := {
  Secret_Namespace : string;
  Secret_Name : string;
  Secret_Data : gmap string (list Byte.byte)
}.

(** [corev1.LocalObjectReference] *)
Record LocalObjectReference := { LocalObjectReference_Name : string }.

(** [corev1.ServiceAccount]; [ServiceAccount_Secrets] stands for the fields
    the command never assigns. *)
Record ServiceAccount := {
  ServiceAccount_Namespace : string;
  ServiceAccount_Name : string;
  ServiceAccount_Secrets : list string;
  ServiceAccount_ImagePullSecrets : list LocalObjectReference
}.

(** The docker config decoded from a secret: [Registry.Auths] maps a
    server to its credentials, of which the command reads [Username]. *)
Record Auth := { Username : string }.
Record Registry := { Auths : gmap string Auth }.

(** An error returned by the API server. [apierrors.IsNotFound] looks at
    the status reason only. *)
Record APIError := { Error : string; ReasonNotFound : bool }.

Definition IsNotFound (err : APIError) : bool := ReasonNotFound err.

(** [kubernetes.Interface], restricted to the four calls of the command.
    [Cluster] is the state of the API server; reads leave it unchanged. *)
Class KubeClient (Cluster : Type) := {
  SecretsList : Cluster → string → string → APIError + list Secret;
  ServiceAccountsGet : Cluster → string → string → APIError + ServiceAccount;
  ServiceAccountsUpdate :
    Cluster → string → ServiceAccount → Cluster * option APIError;
  SecretsDelete : Cluster → string → string → Cluster * option APIError
}.

(** What an observer of one run sees, in order: the API requests with their
    outcome and the lines written through [cmd.Printf]. *)
Inductive event :=
| EvList (ns selector : string) (failed : bool)
| EvGet (ns name : string) (failed : bool)
| EvUpdate (ns : string) (sa : ServiceAccount) (err : option APIError)
| EvDelete (ns name : string) (err : option APIError)
| EvPrintf (line : string).

(** Addresses of Go variables whose address is taken. *)
Abbreviation loc := positive (only parsing).

(** The deletions requested in a trace, as (namespace, name, outcome). *)
Definition deletions (tr : list event) : list (string * string * option APIError) :=
  omap (λ e, match e with EvDelete ns n r => Some (ns, n, r) | _ => None end) tr.

Definition updates (tr : list event) : list (string * ServiceAccount * option APIError) :=
  omap (λ e, match e with EvUpdate ns sa r => Some (ns, sa, r) | _ => None end) tr.

Definition printed (tr : list event) : list string :=
  omap (λ e, match e with EvPrintf l => Some l | _ => None end) tr.

(** A deletion outcome that is an error other than not-found. *)
Definition hardFailure (r : option APIError) : bool :=
  match r with
  | Some err => negb (IsNotFound err)
  | None => false
  end.

Definition notFound (r : option APIError) : bool :=
  match r with
  | Some err => IsNotFound err
  | None => false
  end.

Section Command.

Context {Cluster : Type} `{!KubeClient Cluster}.

(** Package constants declared in a sibling file of the package: the label
    selector of [AdminRegistryLabels] and the key [DockerJSONName]. *)
Variable AdminRegistryLabels : string.
Variable DockerJSONName : string.

(** [json.Unmarshal] into a fresh [Registry{}]: the decoded value, or the
    text of the decoder's error. *)
Variable Unmarshal : list Byte.byte → string + Registry.

(** The flags [--username] and [--server] (package variables). *)
Variable username : string.
Variable server : string.

(** [p.NewKubeClient()]: [Some msg] when no client can be built. *)
Variable NewKubeClient : option string.

(** ** PreRunE (lines 48-56) *)
Definition PreRunE : option string :=
  if bool_decide (username = EmptyString) then
    Some "'registry remove' requires the registry username provided with the --username option"
  else if bool_decide (server = EmptyString) then
    Some "'registry remove' requires the registry server url provided with the --server option"
  else None.

(** ** The filter loop (lines 72-84) *)

(** The inner [range registry.Auths]: every matching entry performs the same
    assignment [secretsMap[secret.Name] = &secret]. *)
Definition rangeAuths (key : string) (l : loc)
    (auths : list (string * Auth)) (secretsMap : gmap string loc) : gmap string loc :=
  foldl (λ m '(secretServer, secretAuth),
           if bool_decide (secretServer = server ∧ Username secretAuth = username)
           then <[key := l]> m else m)
        secretsMap auths.

(** The outer [for _, secret := range secrets.Items]. The range clause
    declares the variable [secret] once for the whole statement (the
    semantics of the language before Go 1.22, which this code base
    targets); every iteration assigns the next item to it, and [&secret]
    is the address [l] of that one variable in all iterations. The store
    [heap] holds its current value. *)
Fixpoint rangeItems (l : loc) (items : list Secret)
    (secretsMap : gmap string loc) (heap : gmap loc Secret)
    : string + (gmap string loc * gmap loc Secret) :=
  match items with
  | [] => inr (secretsMap, heap)
  | item :: rest =>
      let heap := <[l := item]> heap in
      match Unmarshal (default [] (Secret_Data item !! DockerJSONName)) with
      | inl err =>
          inl ("failed unmarshal secret data '.dockerconfigjson': " +:+ err)
      | inr registry =>
          rangeItems l rest
            (rangeAuths (Secret_Name item) l (map_to_list (Auths registry)) secretsMap)
            heap
      end
  end.

(** The condition the loop tests, per stored secret: its docker config
    decodes, and holds credentials of [username] for [server]. *)
Definition decodes (secret : Secret) : bool :=
  match Unmarshal (default [] (Secret_Data secret !! DockerJSONName)) with
  | inl _ => false
  | inr _ => true
  end.

Definition matchesFlags (secret : Secret) : bool :=
  match Unmarshal (default [] (Secret_Data secret !! DockerJSONName)) with
  | inl _ => false
  | inr registry =>
      match Auths registry !! server with
      | Some secretAuth => bool_decide (Username secretAuth = username)
      | None => false
      end
  end.

(** The address the run-time system gives to the loop variable. *)
Definition secretVar : loc := 1%positive.

Definition filterSecrets (items : list Secret)
    : string + (gmap string loc * gmap loc Secret) :=
  rangeItems secretVar items ∅ ∅.

(** ** The ServiceAccount rewrite (lines 95-105) *)
Definition pruneImagePullSecrets (secretsMap : gmap string loc)
    (ips : list LocalObjectReference) : list LocalObjectReference :=
  foldl (λ imagePullSecrets ips,
           match secretsMap !! LocalObjectReference_Name ips with
           | None => imagePullSecrets ++ [ips]
           | Some _ => imagePullSecrets
           end) [] ips.

Definition desiredSa (secretsMap : gmap string loc) (defaultSa : ServiceAccount)
    : ServiceAccount :=
  {| ServiceAccount_Namespace := ServiceAccount_Namespace defaultSa;
     ServiceAccount_Name := ServiceAccount_Name defaultSa;
     ServiceAccount_Secrets := ServiceAccount_Secrets defaultSa;
     ServiceAccount_ImagePullSecrets :=
       pruneImagePullSecrets secretsMap (ServiceAccount_ImagePullSecrets defaultSa) |}.

(** ** The run of the command up to the bulk delete (lines 58-110) *)

(** The API server's state together with what has been observed so far. *)
Record World := { cluster : Cluster; trace : list event }.

Definition emit (e : event) (w : World) : World :=
  {| cluster := cluster w; trace := trace w ++ [e] |}.

(** What has been observed in [w'] since [w]. *)
Definition since (w w' : World) : list event :=
  drop (length (trace w)) (trace w').

Definition setCluster (c : Cluster) (w : World) : World :=
  {| cluster := c; trace := trace w |}.

(** Where the sequential part of [RunE] ends: with a [return], or at
    line 112 holding the map of matched secrets and the store. *)
Inductive Setup :=
| SetupReturn (err : option string)
| SetupDelete (secretsMap : gmap string loc) (heap : gmap loc Secret).

Definition msgNoRegistry : string :=
  "No registry found for server: '" +:+ server +:+ "' and username: '"
    +:+ username +:+ "'" +:+ LF.

Definition msgUpdated (sa : ServiceAccount) : string :=
  "ImagePullSecrets of ServiceAccount '" +:+ ServiceAccount_Namespace sa +:+ "/"
    +:+ ServiceAccount_Name sa +:+ "' updated" +:+ LF.

Definition RunE_setup (w : World) : World * Setup :=
  match NewKubeClient with
  | Some err => (w, SetupReturn (Some err))
  | None =>
  match SecretsList (cluster w) "default" AdminRegistryLabels with
  | inl err =>
      (emit (EvList "default" AdminRegistryLabels true) w,
       SetupReturn (Some ("failed to list secret: " +:+ Error err)))
  | inr items =>
  let w := emit (EvList "default" AdminRegistryLabels false) w in
  match filterSecrets items with
  | inl err => (w, SetupReturn (Some err))
  | inr (secretsMap, heap) =>
  if bool_decide (size secretsMap = 0) then
    (emit (EvPrintf msgNoRegistry) w, SetupReturn None)
  else
  match ServiceAccountsGet (cluster w) "default" "default" with
  | inl err =>
      (emit (EvGet "default" "default" true) w,
       SetupReturn (Some ("failed to get ServiceAccount: " +:+ Error err)))
  | inr defaultSa =>
  let w := emit (EvGet "default" "default" false) w in
  let sa := desiredSa secretsMap defaultSa in
  let '(c, r) := ServiceAccountsUpdate (cluster w) "default" sa in
  let w := emit (EvUpdate "default" sa r) (setCluster c w) in
  match r with
  | Some err =>
      (w, SetupReturn
            (Some ("failed to remove registry secret in default ServiceAccount: "
                     +:+ Error err)))
  | None => (emit (EvPrintf (msgUpdated sa)) w, SetupDelete secretsMap heap)
  end end end end end.

(** The events of the sequential part when it reaches the bulk delete. *)
Definition setupEvents (sa : ServiceAccount) (err : option APIError) : list event :=
  [EvList "default" AdminRegistryLabels false; EvGet "default" "default" false;
   EvUpdate "default" sa err].

(** ** deleteSecrets (lines 140-159)

    One goroutine per map entry. A goroutine's control points: before the
    [Delete] request (line 146), before the report of its outcome (lines
    147-155), before the deferred [w.Done()], and finished. The local
    variable [err] stays in scope from line 146 on. *)
Inductive pc :=
| PcCall
| PcReport (err : option APIError)
| PcDone (err : option APIError)
| PcExit (err : option APIError).

Record goroutine := { g_secret : loc; g_pc : pc }.

(** The state of one call of [deleteSecrets]: the contents of [errCh]
    (oldest first), the counter of the WaitGroup, the map entries the
    [range] at line 143 has still to visit, the goroutines started so far,
    and whether [w.Wait()] has returned. *)
Record dstate := {
  d_world : World;
  d_errCh : list string;
  d_wg : nat;
  d_range : list loc;
  d_gs : list goroutine;
  d_returned : bool
}.

(** What the scheduler may pick: the next iteration of the [range] loop
    (a [go] statement), the next step of goroutine [i], or the return of
    [w.Wait()] in the calling goroutine. *)
Inductive action := ActGo | ActRun (i : nat) | ActReturn.

Definition msgNotFound (s : Secret) : string :=
  "Secret '" +:+ Secret_Namespace s +:+ "/" +:+ Secret_Name s
    +:+ "' not found, skipped" +:+ LF.

Definition msgDeleted (s : Secret) : string :=
  "Secret '" +:+ Secret_Namespace s +:+ "/" +:+ Secret_Name s
    +:+ "' deleted" +:+ LF.

Definition errDelete (s : Secret) (err : APIError) : string :=
  "failed to delete secret '" +:+ Secret_Namespace s +:+ "/" +:+ Secret_Name s
    +:+ "': " +:+ Error err.

Definition setGoroutine (i : nat) (g : goroutine) (s : dstate) : dstate :=
  {| d_world := d_world s; d_errCh := d_errCh s; d_wg := d_wg s;
     d_range := d_range s; d_gs := <[i := g]> (d_gs s);
     d_returned := d_returned s |}.

Definition setWorld (w : World) (s : dstate) : dstate :=
  {| d_world := w; d_errCh := d_errCh s; d_wg := d_wg s;
     d_range := d_range s; d_gs := d_gs s; d_returned := d_returned s |}.

(** One step of goroutine [i]. Reading [secret.Namespace] through a pointer
    outside the store and [Done] on a zero counter panic, a send on a full
    channel blocks: no step. *)
Definition stepGoroutine (heap : gmap loc Secret) (cap : nat)
    (i : nat) (g : goroutine) (s : dstate) : option dstate :=
  match g_pc g with
  | PcCall =>
      secret ← heap !! g_secret g;
      let '(c, err) :=
        SecretsDelete (cluster (d_world s)) (Secret_Namespace secret) (Secret_Name secret) in
      Some (setGoroutine i {| g_secret := g_secret g; g_pc := PcReport err |}
              (setWorld
                 (emit (EvDelete (Secret_Namespace secret) (Secret_Name secret) err)
                    (setCluster c (d_world s))) s))
  | PcReport err =>
      secret ← heap !! g_secret g;
      let done := {| g_secret := g_secret g; g_pc := PcDone err |} in
      match err with
      | Some e =>
          if IsNotFound e then
            Some (setGoroutine i done
                    (setWorld (emit (EvPrintf (msgNotFound secret)) (d_world s)) s))
          else if bool_decide (length (d_errCh s) < cap) then
            Some (setGoroutine i done
                    {| d_world := d_world s;
                       d_errCh := d_errCh s ++ [errDelete secret e];
                       d_wg := d_wg s; d_range := d_range s; d_gs := d_gs s;
                       d_returned := d_returned s |})
          else None
      | None =>
          Some (setGoroutine i done
                  (setWorld (emit (EvPrintf (msgDeleted secret)) (d_world s)) s))
      end
  | PcDone err =>
      match d_wg s with
      | 0 => None
      | S n =>
          Some (setGoroutine i {| g_secret := g_secret g; g_pc := PcExit err |}
                  {| d_world := d_world s; d_errCh := d_errCh s; d_wg := n;
                     d_range := d_range s; d_gs := d_gs s;
                     d_returned := d_returned s |})
      end
  | PcExit _ => None
  end.

Definition step (heap : gmap loc Secret) (cap : nat)
    (a : action) (s : dstate) : option dstate :=
  if d_returned s then None else
  match a with
  | ActGo =>
      match d_range s with
      | [] => None
      | l :: rest =>
          Some {| d_world := d_world s; d_errCh := d_errCh s; d_wg := d_wg s;
                  d_range := rest;
                  d_gs := d_gs s ++ [{| g_secret := l; g_pc := PcCall |}];
                  d_returned := false |}
      end
  | ActRun i => g ← d_gs s !! i; stepGoroutine heap cap i g s
  | ActReturn =>
      match d_range s, d_wg s with
      | [], 0 =>
          Some {| d_world := d_world s; d_errCh := d_errCh s; d_wg := 0;
                  d_range := []; d_gs := d_gs s; d_returned := true |}
      | _, _ => None
      end
  end.

(** A schedule is the list of the scheduler's picks; [exec] is [None] when
    the schedule picks something that cannot run. *)
Fixpoint exec (heap : gmap loc Secret) (cap : nat)
    (sched : list action) (s : dstate) : option dstate :=
  match sched with
  | [] => Some s
  | a :: sched => s' ← step heap cap a s; exec heap cap sched s'
  end.

(** Entry of [deleteSecrets]: [w.Add(len(secretsMap))], then the [range]
    over the map in the order [order] picked by the run-time system. *)
Definition deleteSecrets_init (w : World) (errCh : list string)
    (order : list (string * loc)) : dstate :=
  {| d_world := w; d_errCh := errCh; d_wg := length order;
     d_range := order.*2; d_gs := []; d_returned := false |}.

(** ** The bulk delete as the command performs it (lines 112-128):
    a channel buffered to the size of the map, [deleteSecrets], one
    [select] with a [default] branch. *)
Definition selectErr (errCh : list string) : option string := head errCh.

Definition bulkDelete (secretsMap : gmap string loc) (heap : gmap loc Secret)
    (order : list (string * loc)) (sched : list action) (w : World)
    : option (World * option string) :=
  if bool_decide (order ≡ₚ map_to_list secretsMap) then
    s ← exec heap (size secretsMap) sched (deleteSecrets_init w [] order);
    if d_returned s then
      Some (d_world s,
            match selectErr (d_errCh s) with
            | Some deleteSecretsErr =>
                Some ("failed to delete secrets: " +:+ deleteSecretsErr)
            | None => None
            end)
    else None
  else None.

(** ** RunE (lines 57-129). [None]: [order] and [sched] do not describe a
    complete run. *)
Definition RunE (order : list (string * loc)) (sched : list action) (w : World)
    : option (World * option string) :=
  match RunE_setup w with
  | (w, SetupReturn r) => Some (w, r)
  | (w, SetupDelete secretsMap heap) => bulkDelete secretsMap heap order sched w
  end.

(** ** Projections of a state used to state the invariants *)

(** The (namespace, name) a pointer designates. *)
Definition target (heap : gmap loc Secret) (l : loc) : option (string * string) :=
  (λ s, (Secret_Namespace s, Secret_Name s)) <$> heap !! l.

(** Goroutines that have not run [w.Done()] yet. *)
Definition live (g : goroutine) : list () :=
  match g_pc g with PcExit _ => [] | _ => [()] end.

(** Goroutines that may still send on [errCh]. *)
Definition unsent (g : goroutine) : list () :=
  match g_pc g with PcCall | PcReport _ => [()] | _ => [] end.

(** The request a goroutine has made, with its outcome. *)
Definition called (heap : gmap loc Secret) (g : goroutine)
    : list (string * string * option APIError) :=
  match g_pc g, heap !! g_secret g with
  | (PcReport r | PcDone r | PcExit r), Some s =>
      [(Secret_Namespace s, Secret_Name s, r)]
  | _, _ => []
  end.

(** The error a goroutine has sent on [errCh]. *)
Definition sent (heap : gmap loc Secret) (g : goroutine) : list string :=
  match g_pc g, heap !! g_secret g with
  | (PcDone (Some e) | PcExit (Some e)), Some s =>
      if IsNotFound e then [] else [errDelete s e]
  | _, _ => []
  end.

Definition exited (g : goroutine) : Prop := ∃ r, g_pc g = PcExit r.

(** Steps a goroutine has left. *)
Definition remaining (g : goroutine) : nat :=
  match g_pc g with
  | PcCall => 3 | PcReport _ => 2 | PcDone _ => 1 | PcExit _ => 0
  end.

(** Steps the whole call has left, the return of [w.Wait()] included; every
    [go] statement adds a goroutine with three steps. *)
Definition stepsLeft (s : dstate) : nat :=
  (if d_returned s then 0 else 1) + 4 * length (d_range s)
    + sum_list_with remaining (d_gs s).

(** The events a step of [deleteSecrets] may add to the trace. *)
Definition deleteEvent (e : event) : Prop :=
  match e with EvDelete _ _ _ | EvPrintf _ => True | _ => False end.

(** The invariant of [deleteSecrets] started on the pointers [locs] with an
    empty channel of capacity [cap]; [tr] is what the call has added to the
    trace so far. *)
Record Inv (heap : gmap loc Secret) (cap : nat) (locs : list loc)
    (tr0 tr : list event) (s : dstate) : Prop := {
  inv_trace : trace (d_world s) = tr0 ++ tr;
  inv_events : Forall deleteEvent tr;
  inv_secrets : (g_secret <$> d_gs s) ++ d_range s = locs;
  inv_wg : d_wg s = length (d_range s) + length (d_gs s ≫= live);
  inv_calls : deletions tr ≡ₚ d_gs s ≫= called heap;
  inv_chan : d_errCh s ≡ₚ d_gs s ≫= sent heap;
  inv_room : length (d_errCh s) + length (d_range s) + length (d_gs s ≫= unsent) ≤ cap;
  inv_ret : d_returned s = true → d_range s = [] ∧ d_wg s = 0
}.

End Command.

(** ** A test double of the API server

    In the manner of client-go's fake clientset: an object store with
    reactors that inject errors. It instantiates [KubeClient] in the
    examples below. *)
Record FakeCluster := {
  fk_secrets : list Secret;
  fk_serviceAccount : option ServiceAccount;
  fk_listErr : option APIError;
  fk_updateErr : option APIError;
  fk_deleteErr : gmap string APIError
}.

Definition errNotFound (kind name : string) : APIError :=
  {| Error := kind +:+ " '" +:+ name +:+ "' not found"; ReasonNotFound := true |}.

Definition sameObject (ns name : string) (s : Secret) : bool :=
  bool_decide (Secret_Namespace s = ns ∧ Secret_Name s = name).

Definition fakeDelete (c : FakeCluster) (ns name : string)
    : FakeCluster * option APIError :=
  match fk_deleteErr c !! name with
  | Some err => (c, Some err)
  | None =>
      if existsb (sameObject ns name) (fk_secrets c) then
        ({| fk_secrets := List.filter (λ s, negb (sameObject ns name s)) (fk_secrets c);
            fk_serviceAccount := fk_serviceAccount c;
            fk_listErr := fk_listErr c; fk_updateErr := fk_updateErr c;
            fk_deleteErr := fk_deleteErr c |}, None)
      else (c, Some (errNotFound "secrets" name))
  end.

Definition fakeUpdate (c : FakeCluster) (ns : string) (sa : ServiceAccount)
    : FakeCluster * option APIError :=
  match fk_updateErr c with
  | Some err => (c, Some err)
  | None =>
      ({| fk_secrets := fk_secrets c; fk_serviceAccount := Some sa;
          fk_listErr := fk_listErr c; fk_updateErr := fk_updateErr c;
          fk_deleteErr := fk_deleteErr c |}, None)
  end.

#[export] Instance fakeClient : KubeClient FakeCluster := {|
  SecretsList c ns selector :=
    match fk_listErr c with
    | Some err => inl err
    | None =>
        inr (List.filter (λ s, bool_decide (Secret_Namespace s = ns)) (fk_secrets c))
    end;
  ServiceAccountsGet c ns name :=
    match fk_serviceAccount c with
    | Some sa => inr sa
    | None => inl (errNotFound "serviceaccounts" name)
    end;
  ServiceAccountsUpdate := fakeUpdate;
  SecretsDelete := fakeDelete
|}.

(** A table-driven stand-in for the JSON decoder: payloads outside the
    table are rejected, as the real decoder rejects the empty payload. *)
#[export] Instance byte_eq_dec : EqDecision Byte.byte := Byte.byte_eq_dec.

Definition stubUnmarshal (table : list (list Byte.byte * Registry))
    (data : list Byte.byte) : string + Registry :=
  match list_find (λ p, p.1 = data) table with
  | Some (_, (_, registry)) => inr registry
  | None => inl "unexpected end of JSON input"
  end.

(** Fixtures: two stored credentials for the same registry and user, and
    one for another registry. *)
Definition dockerJSON (tag : string) : gmap string (list Byte.byte) :=
  {[ ".dockerconfigjson" := String.list_byte_of_string tag ]}.

Definition secretA : Secret :=
  {| Secret_Namespace := "default"; Secret_Name := "secret-a";
     Secret_Data := dockerJSON "docker.io/alice" |}.

Definition secretB : Secret :=
  {| Secret_Namespace := "default"; Secret_Name := "secret-b";
     Secret_Data := dockerJSON "docker.io/alice" |}.

Definition secretC : Secret :=
  {| Secret_Namespace := "default"; Secret_Name := "secret-c";
     Secret_Data := dockerJSON "quay.io/bob" |}.

Definition decoder : list Byte.byte → string + Registry :=
  stubUnmarshal
    [ (String.list_byte_of_string "docker.io/alice",
       {| Auths := {[ "docker.io" := {| Username := "alice" |} ]} |});
      (String.list_byte_of_string "quay.io/bob",
       {| Auths := {[ "quay.io" := {| Username := "bob" |} ]} |}) ].

Definition defaultSA : ServiceAccount :=
  {| ServiceAccount_Namespace := "default"; ServiceAccount_Name := "default";
     ServiceAccount_Secrets := ["default-token"];
     ServiceAccount_ImagePullSecrets :=
       [ {| LocalObjectReference_Name := "secret-c" |};
         {| LocalObjectReference_Name := "secret-a" |};
         {| LocalObjectReference_Name := "other" |};
         {| LocalObjectReference_Name := "secret-b" |} ] |}.

Definition fakeCluster (secrets : list Secret) : FakeCluster :=
  {| fk_secrets := secrets; fk_serviceAccount := Some defaultSA;
     fk_listErr := None; fk_updateErr := None; fk_deleteErr := ∅ |}.

Definition fakeWorld (c : FakeCluster) : World (Cluster := FakeCluster) :=
  {| cluster := c; trace := [] |}.

(** A stored credential whose payload is missing. *)
Definition secretBroken : Secret :=
  {| Secret_Namespace := "default"; Secret_Name := "secret-x"; Secret_Data := ∅ |}.

(** [kn admin registry remove --username=alice --server=docker.io] against
    the test double. *)
Definition removeAlice (c : FakeCluster) (order : list (string * loc))
    (sched : list action) : option (World * option string) :=
  RunE "managed-by=kn-admin-registry" ".dockerconfigjson" decoder
    "alice" "docker.io" None order sched (fakeWorld c).

(** The map and the store the command builds from [secretA; secretB]. *)
Definition aliasedMap : gmap string loc :=
  {[ "secret-a" := secretVar; "secret-b" := secretVar ]}.

Definition aliasedHeap : gmap loc Secret := {[ secretVar := secretB ]}.

(** A schedule for two goroutines: both started, then interleaved. *)
Definition interleaved : list action :=
  [ActGo; ActGo; ActRun 1; ActRun 0; ActRun 0; ActRun 1; ActRun 1; ActRun 0;
   ActReturn].

(** A schedule for one goroutine. *)
Definition single : list action :=
  [ActGo; ActRun 0; ActRun 0; ActRun 0; ActReturn].

Definition oneEntry : gmap string loc := {[ "secret-a" := secretVar ]}.
Definition oneHeap : gmap loc Secret := {[ secretVar := secretA ]}.

Definition errForbidden : APIError :=
  {| Error := "secrets is forbidden"; ReasonNotFound := false |}.

(** A cluster that refuses to delete [secret-a]. *)
Definition forbiddingCluster : FakeCluster :=
  {| fk_secrets := [secretA]; fk_serviceAccount := Some defaultSA;
     fk_listErr := None; fk_updateErr := None;
     fk_deleteErr := {[ "secret-a" := errForbidden ]} |}.

(** ** Outcomes of the deletions and what the command shows of them *)

(** The line a goroutine prints for the outcome of its request (lines 149
    and 154); a failure other than not-found prints nothing. *)
Definition outcomeLine (d : string * string * option APIError) : list string :=
  match d with
  | (ns, name, None) => ["Secret '" +:+ ns +:+ "/" +:+ name +:+ "' deleted" +:+ LF]
  | (ns, name, Some err) =>
      if IsNotFound err
      then ["Secret '" +:+ ns +:+ "/" +:+ name +:+ "' not found, skipped" +:+ LF]
      else []
  end.

(** The error a goroutine sends for the outcome of its request (line 151). *)
Definition outcomeError (d : string * string * option APIError) : list string :=
  match d with
  | (ns, name, Some err) =>
      if IsNotFound err then []
      else ["failed to delete secret '" +:+ ns +:+ "/" +:+ name +:+ "': " +:+ Error err]
  | _ => []
  end.

(** The line a goroutine has printed. *)
Definition reported (heap : gmap loc Secret) (g : goroutine) : list string :=
  match g_pc g, heap !! g_secret g with
  | (PcDone r | PcExit r), Some s =>
      outcomeLine (Secret_Namespace s, Secret_Name s, r)
  | _, _ => []
  end.

(** Further fixtures: a cluster that refuses the ServiceAccount update, and
    a map of two entries with a pointer each, of which only [secret-a] is
    stored in the cluster. *)
Definition updateRefusingCluster : FakeCluster :=
  {| fk_secrets := [secretA]; fk_serviceAccount := Some defaultSA;
     fk_listErr := None; fk_updateErr := Some errForbidden; fk_deleteErr := ∅ |}.

Definition twoEntries : gmap string loc :=
  {[ "secret-a" := 1%positive; "secret-b" := 2%positive ]}.

Definition twoHeap : gmap loc Secret :=
  {[ 1%positive := secretA; 2%positive := secretB ]}.

(** Further fixtures: a cluster that refuses to delete both secrets, and a
    cluster whose ServiceAccount has the matched secret as its only image
    pull secret. *)
Definition forbidAllCluster : FakeCluster :=
  {| fk_secrets := [secretA; secretB]; fk_serviceAccount := Some defaultSA;
     fk_listErr := None; fk_updateErr := None;
     fk_deleteErr := {[ "secret-a" := errForbidden; "secret-b" := errForbidden ]} |}.

Definition soleSA : ServiceAccount :=
  {| ServiceAccount_Namespace := "default"; ServiceAccount_Name := "default";
     ServiceAccount_Secrets := ["default-token"];
     ServiceAccount_ImagePullSecrets := [ {| LocalObjectReference_Name := "secret-a" |} ] |}.

Definition soleCluster : FakeCluster :=
  {| fk_secrets := [secretA]; fk_serviceAccount := Some soleSA;
     fk_listErr := None; fk_updateErr := None; fk_deleteErr := ∅ |}.

End Registry.

(* ================================================================== *)
(** * Package profiling: [Downloader.Download] *)
(* ================================================================== *)

Module Profiling.

(** Modelled from the spec: the downloader itself ([downloader.go]) and
    the declarations of [ProfileType] and [ProfileEndpoints] are not among
    the sources; only [downloader_test.go] is. The definitions of this
    module follow section 4.2 of the specification (states, contract and
    error taxonomy of the GatedDownloader) and the scenarios of the test
    file. *)

(** Modelled from the spec: a gate is a one-shot broadcast signal
    ([readyCh], [stopCh]: channels that are closed to signal). *)
Inductive Gate := Pending | Signaled.

(** Modelled from the spec: the error taxonomy of the component. *)
Inductive DownloadError :=
| UnsupportedKind
| Aborted
| Canceled
| RemoteError (status : Z) (body : string)
| TransportError (msg : string).

(** The verb [%d] of the format strings. *)
Definition decimal (n : Z) : string := NilZero.string_of_int (Z.to_int n).

(** Modelled from the spec: the text each failure carries; the tests look
    for it with [assert.ErrorContains]. *)
Definition errorMessage (e : DownloadError) : string :=
  match e with
  | UnsupportedKind => "unsupported profiling type"
  | Aborted => "download failed"
  | Canceled => "context canceled"
  | RemoteError status body =>
      "download error: " +:+ body +:+ ", code " +:+ decimal status
  | TransportError msg => msg
  end.

(** Modelled from the spec: what reaches a running [Download] from
    outside, namely the two gates firing and what the transport delivers
    for the request in flight. *)
Inductive input :=
| ReadyFires
| StopFires
| ResponseArrives (status : Z)
| ChunkArrives (bytes : list Byte.byte)
| BodyEnds
| TransportFails (msg : string).

(** Modelled from the spec: what [Download] does to the outside, namely
    the request it sends, what it writes to the sink, and the termination
    of the request in flight. *)
Inductive output :=
| SendGET (port : Z) (path : string)
| WriteSink (bytes : list Byte.byte)
| AbortRequest.

(** Modelled from the spec: the states
    [Idle → WaitingForReady → {Fetching → Done} | Aborted]. [Done] carries
    the value [Download] returns; the spec's [Aborted] is
    [Done (Some Aborted)]. While fetching, [head] is the status once the
    response head has arrived and [body] the text of a rejected response
    read so far. *)
Inductive state :=
| Idle
| WaitingForReady (path : string)
| Fetching (head : option Z) (body : list Byte.byte)
| Done (result : option DownloadError).

Section Downloader.

(** Modelled from the spec: the table [ProfileEndpoints] of paths indexed
    by kind, and the sentinel [ProfileTypeUnknown]. *)
Variable ProfileEndpoints : list string.
Variable ProfileTypeUnknown : Z.

(** Modelled from the spec: which statuses count as success. *)
Variable success : Z → bool.

(** The field [localPort] of the downloader. *)
Variable localPort : Z.

(** Modelled from the spec: the path of a kind of the closed set. *)
Definition endpoint (kind : Z) : option string :=
  if bool_decide (kind = ProfileTypeUnknown) then None
  else if bool_decide (kind < 0)%Z then None
  else ProfileEndpoints !! Z.to_nat kind.

(** Modelled from the spec: the call. An unsupported kind fails at once;
    otherwise the gates are examined, the stop gate first. *)
Definition start (kind : Z) (ready stop : Gate) : state * list output :=
  match endpoint kind with
  | None => (Done (Some UnsupportedKind), [])
  | Some path =>
      match stop, ready with
      | Signaled, _ => (Done (Some Aborted), [])
      | Pending, Signaled => (Fetching None [], [SendGET localPort path])
      | Pending, Pending => (WaitingForReady path, [])
      end
  end.

(** Modelled from the spec: the reaction to one input. *)
Definition step (st : state) (i : input) : state * list output :=
  match st, i with
  | WaitingForReady _, StopFires => (Done (Some Aborted), [])
  | WaitingForReady path, ReadyFires =>
      (Fetching None [], [SendGET localPort path])
  | Fetching _ _, StopFires => (Done (Some Canceled), [AbortRequest])
  | Fetching _ _, TransportFails msg => (Done (Some (TransportError msg)), [])
  | Fetching None body, ResponseArrives status => (Fetching (Some status) body, [])
  | Fetching (Some status) body, ChunkArrives bytes =>
      if success status then (st, [WriteSink bytes])
      else (Fetching (Some status) (body ++ bytes), [])
  | Fetching (Some status) body, BodyEnds =>
      if success status then (Done None, [])
      else (Done (Some (RemoteError status (String.string_of_list_byte body))), [])
  | _, _ => (st, [])
  end.

(** Modelled from the spec: the reaction to a sequence of inputs. *)
Fixpoint run (st : state) (inputs : list input) : state * list output :=
  match inputs with
  | [] => (st, [])
  | i :: inputs =>
      let '(st1, out1) := step st i in
      let '(st2, out2) := run st1 inputs in
      (st2, out1 ++ out2)
  end.

(** Modelled from the spec: [d.Download(kind, sink)] called with the gates
    in the states [ready] and [stop], and then receiving [inputs]; the
    state reached ([Done r] when the call has returned [r]) and what it
    did. *)
Definition Download (kind : Z) (ready stop : Gate) (inputs : list input)
    : state * list output :=
  let '(st0, out0) := start kind ready stop in
  let '(st1, out1) := run st0 inputs in
  (st1, out0 ++ out1).

End Downloader.

(** The bytes written to the sink and the requests sent. *)
Definition sink (out : list output) : list Byte.byte :=
  out ≫= λ o, match o with WriteSink bytes => bytes | _ => [] end.

Definition requests (out : list output) : list (Z * string) :=
  omap (λ o, match o with SendGET port path => Some (port, path) | _ => None end) out.

(** The firing of the ready gate as the call sees it: an input when the
    gate is pending at the call, nothing when it has fired before. *)
Definition readyInputs (ready : Gate) : list input :=
  match ready with Pending => [ReadyFires] | Signaled => [] end.

(** The response of a server that answers [status] and streams [chunks]. *)
Definition response (status : Z) (chunks : list (list Byte.byte)) : list input :=
  ResponseArrives status :: (ChunkArrives <$> chunks) ++ [BodyEnds].

(** For the examples: a table with the one entry the tests pin down. *)
Definition sampleEndpoints : list string := [EmptyString; "/debug/pprof/heap"].
Definition sampleSuccess (status : Z) : bool := bool_decide (status = 200%Z).

End Profiling.

(* ================================================================== *)
(** * Theorems *)
(* ================================================================== *)

(** ** Text *)

Lemma append_nil_r (a : string) : a +:+ EmptyString = a.
Proof.
  induction a as [|x a IH]; [done |].
  change (String x (a +:+ EmptyString) = String x a). by rewrite IH.
Qed.

Lemma Contains_refl (s : string) : Contains s s.
Proof. exists EmptyString, EmptyString. by rewrite append_nil_r. Qed.



(** ** Lists of goroutines *)

Section ListFacts.
Context {A B : Type}.
Implicit Types (f : A → list B) (l : list A).

Lemma insert_middle l i x y :
  l !! i = Some x →
  ∃ l1 l2, l = l1 ++ x :: l2 ∧ <[i := y]> l = l1 ++ y :: l2.
Proof.
  intros Hi. exists (take i l), (drop (S i) l). split.
  - by rewrite take_drop_middle.
  - apply insert_take_drop. by eapply lookup_lt_Some.
Qed.

Lemma bind_insert_same f l i x y :
  l !! i = Some x → f y = f x → <[i := y]> l ≫= f = l ≫= f.
Proof.
  intros Hi Hf. destruct (insert_middle l i x y Hi) as (l1 & l2 & -> & ->).
  by rewrite !bind_app, !bind_cons, Hf.
Qed.

Lemma bind_insert_add f l i x y :
  l !! i = Some x → f x = [] → <[i := y]> l ≫= f ≡ₚ (l ≫= f) ++ f y.
Proof.
  intros Hi Hf. destruct (insert_middle l i x y Hi) as (l1 & l2 & -> & ->).
  rewrite !bind_app, !bind_cons, Hf. simpl.
  rewrite <- !(assoc_L (++)). f_equiv. apply Permutation_app_comm.
Qed.

Lemma bind_insert_del f l i x y :
  l !! i = Some x → f y = [] → l ≫= f ≡ₚ (<[i := y]> l ≫= f) ++ f x.
Proof.
  intros Hi Hf. destruct (insert_middle l i x y Hi) as (l1 & l2 & -> & ->).
  rewrite !bind_app, !bind_cons, Hf. simpl.
  rewrite <- !(assoc_L (++)). f_equiv. apply Permutation_app_comm.
Qed.

Lemma sum_list_insert (h : A → nat) l i x y a b :
  l !! i = Some x → h x = a → h y = b →
  sum_list_with h (<[i := y]> l) + a = sum_list_with h l + b.
Proof.
  intros Hi <- <-. destruct (insert_middle l i x y Hi) as (l1 & l2 & -> & ->).
  rewrite !sum_list_with_app. simpl. lia.
Qed.

Lemma fmap_insert_same (h : A → B) l i x y :
  l !! i = Some x → h y = h x → h <$> <[i := y]> l = h <$> l.
Proof.
  intros Hi Hh. rewrite list_fmap_insert, Hh. apply list_insert_id.
  by rewrite list_lookup_fmap, Hi.
Qed.
End ListFacts.

(** ** The invariant of deleteSecrets *)

Import Registry.

Section Machine.
Context {Cluster : Type} `{!KubeClient Cluster}.
Implicit Types (heap : gmap positive Secret) (s : dstate (Cluster := Cluster)).

Lemma deletions_app tr1 tr2 : deletions (tr1 ++ tr2) = deletions tr1 ++ deletions tr2.
Proof. apply omap_app. Qed.

Lemma updates_app tr1 tr2 : updates (tr1 ++ tr2) = updates tr1 ++ updates tr2.
Proof. apply omap_app. Qed.

(** What one step of a goroutine does to the projections. *)
Lemma step_inv heap cap locs tr0 tr a s s' :
  Inv heap cap locs tr0 tr s →
  step heap cap a s = Some s' →
  ∃ tr', Inv heap cap locs tr0 (tr ++ tr') s' ∧ stepsLeft s = S (stepsLeft s').
Proof.
  intros [Htr Hev Hsec Hwg Hcalls Hchan Hroom Hret] Hstep.
  unfold step in Hstep. destruct (d_returned s) eqn:Hr; [done |].
  destruct a as [| i |].
  - (* go *)
    destruct (d_range s) as [| l rest] eqn:Hrange; [done |].
    injection Hstep as <-. exists []. rewrite app_nil_r. split.
    + split; simpl; try done; try congruence.
      * by rewrite fmap_app, <- (assoc_L (++)).
      * rewrite bind_app, length_app. simpl in *. lia.
      * by rewrite bind_app, app_nil_r.
      * by rewrite bind_app, app_nil_r.
      * rewrite bind_app, length_app. simpl in *. lia.
    + unfold stepsLeft. simpl. rewrite Hr, Hrange, sum_list_with_app. simpl. lia.
  - (* a goroutine *)
    destruct (d_gs s !! i) as [g |] eqn:Hi; [| done]. simpl in Hstep.
    unfold stepGoroutine in Hstep.
    destruct g as [l p]. simpl in *. destruct p as [| r | r | r].
    + (* the request *)
      destruct (heap !! l) as [secret |] eqn:Hsecret; [| done]. simpl in Hstep.
      destruct (SecretsDelete _ _ _) as [c r]. injection Hstep as <-.
      eexists [_]. split.
      * split; simpl.
        -- by rewrite Htr, <- (assoc_L (++)).
        -- apply Forall_app. split; [done |]. by repeat constructor.
        -- by erewrite fmap_insert_same.
        -- by erewrite bind_insert_same.
        -- rewrite deletions_app, Hcalls. simpl.
           rewrite (bind_insert_add _ _ _ _ _ Hi); [| done].
           unfold called at 3. simpl. by rewrite Hsecret.
        -- by erewrite (bind_insert_same (sent heap)).
        -- by erewrite (bind_insert_same unsent).
        -- congruence.
      * unfold stepsLeft. simpl. rewrite Hr.
        pose proof (sum_list_insert remaining _ _ _ {| g_secret := l; g_pc := PcReport r |} 3 2 Hi eq_refl eq_refl) as Hsum.
        simpl in *. lia.
    + (* the report *)
      destruct (heap !! l) as [secret |] eqn:Hsecret; [| done]. simpl in Hstep.
      assert (Hlen : length (d_gs s ≫= unsent)
                = S (length (<[i := {| g_secret := l; g_pc := PcDone r |}]> (d_gs s) ≫= unsent))).
      { rewrite (bind_insert_del unsent _ _ _ {| g_secret := l; g_pc := PcDone r |} Hi); [| done].
        rewrite length_app. simpl. lia. }
      assert (Hsteps : ∀ s1, d_returned s1 = false → d_range s1 = d_range s →
                d_gs s1 = <[i := {| g_secret := l; g_pc := PcDone r |}]> (d_gs s) →
                stepsLeft s = S (stepsLeft s1)).
      { intros s1 Hr1 Hrg1 Hgs1. unfold stepsLeft. rewrite Hr, Hr1, Hrg1, Hgs1.
        pose proof (sum_list_insert remaining _ _ _ {| g_secret := l; g_pc := PcDone r |} 2 1 Hi eq_refl eq_refl) as Hsum.
        simpl in *. lia. }
      destruct r as [e |]; [destruct (IsNotFound e) eqn:Hnf |].
      * injection Hstep as <-. eexists [_]. split; [| by apply Hsteps].
        split; simpl.
        -- by rewrite Htr, <- (assoc_L (++)).
        -- apply Forall_app. split; [done |]. by repeat constructor.
        -- by erewrite fmap_insert_same.
        -- by erewrite bind_insert_same.
        -- rewrite deletions_app, app_nil_r. by erewrite bind_insert_same.
        -- rewrite (bind_insert_add _ _ _ _ _ Hi); [| done].
           unfold sent at 2. simpl. by rewrite Hsecret, Hnf, app_nil_r.
        -- lia.
        -- congruence.
      * case_bool_decide as Hcap; [| done]. injection Hstep as <-.
        exists []. rewrite app_nil_r. split; [| by apply Hsteps].
        split; simpl; try done; try congruence.
        -- by erewrite fmap_insert_same.
        -- by erewrite bind_insert_same.
        -- by erewrite bind_insert_same.
        -- rewrite (bind_insert_add _ _ _ _ _ Hi); [| done].
           unfold sent at 2. simpl. by rewrite Hsecret, Hnf, Hchan.
        -- rewrite length_app. simpl. lia.
      * injection Hstep as <-. eexists [_]. split; [| by apply Hsteps].
        split; simpl.
        -- by rewrite Htr, <- (assoc_L (++)).
        -- apply Forall_app. split; [done |]. by repeat constructor.
        -- by erewrite fmap_insert_same.
        -- by erewrite bind_insert_same.
        -- rewrite deletions_app, app_nil_r. by erewrite bind_insert_same.
        -- rewrite (bind_insert_add _ _ _ _ _ Hi); [| done].
           unfold sent at 2. simpl. by rewrite app_nil_r.
        -- lia.
        -- congruence.
    + (* the deferred Done *)
      destruct (d_wg s) as [| n] eqn:Hn; [done |]. injection Hstep as <-.
      exists []. rewrite app_nil_r. split.
      * split; simpl; try done; try congruence.
        -- by erewrite fmap_insert_same.
        -- pose proof (bind_insert_del live _ _ _ {| g_secret := l; g_pc := PcExit r |} Hi eq_refl) as Hl.
           apply Permutation_length in Hl. rewrite length_app in Hl. simpl in *. lia.
        -- by erewrite bind_insert_same.
        -- by erewrite (bind_insert_same (sent heap)).
        -- by erewrite (bind_insert_same unsent).
      * unfold stepsLeft. simpl. rewrite Hr.
        pose proof (sum_list_insert remaining _ _ _ {| g_secret := l; g_pc := PcExit r |} 1 0 Hi eq_refl eq_refl) as Hsum.
        simpl in *. lia.
    + done.
  - (* the return of w.Wait() *)
    destruct (d_range s) eqn:Hrange; [| done].
    destruct (d_wg s) eqn:Hn; [| done]. injection Hstep as <-.
    exists []. rewrite app_nil_r. split.
    + split; simpl; try done; try congruence.
    + unfold stepsLeft. simpl. rewrite Hr, Hrange. simpl. lia.
Qed.

Lemma exec_inv heap cap locs tr0 sched : ∀ tr s s',
  Inv heap cap locs tr0 tr s →
  exec heap cap sched s = Some s' →
  ∃ tr', Inv heap cap locs tr0 (tr ++ tr') s'
         ∧ stepsLeft s = length sched + stepsLeft s'.
Proof.
  induction sched as [| a sched IH]; intros tr s s' Hinv Hexec; simpl in Hexec.
  - injection Hexec as <-. exists []. by rewrite app_nil_r.
  - destruct (step heap cap a s) as [s1 |] eqn:Hstep; [| done]. simpl in Hexec.
    destruct (step_inv _ _ _ _ _ _ _ _ Hinv Hstep) as (tr1 & Hinv1 & Hm1).
    destruct (IH _ _ _ Hinv1 Hexec) as (tr2 & Hinv2 & Hm2).
    exists (tr1 ++ tr2). rewrite (assoc_L (++)). split; [done |]. simpl. lia.
Qed.

Lemma exec_app heap cap sched1 sched2 s :
  exec heap cap (sched1 ++ sched2) s
  = exec heap cap sched1 s ≫= exec heap cap sched2.
Proof.
  revert s. induction sched1 as [| a sched1 IH]; intros s; simpl; [done |].
  destruct (step heap cap a s); simpl; [apply IH | done].
Qed.

Lemma Inv_init heap cap (w : World (Cluster := Cluster)) order :
  length order ≤ cap →
  Inv heap cap order.*2 (trace w) [] (deleteSecrets_init w [] order).
Proof.
  intros Hcap. split; simpl; try done.
  - by rewrite app_nil_r.
  - by rewrite length_fmap, Nat.add_0_r.
  - rewrite length_fmap. lia.
Qed.

Lemma bind_units_pos {X} (f : X → list ()) (l : list X) :
  0 < length (l ≫= f) → ∃ i x, l !! i = Some x ∧ f x ≠ [].
Proof.
  induction l as [| x l IH]; [simpl; lia |]. rewrite bind_cons, length_app.
  intros Hlen. destruct (f x) eqn:Hfx; simpl in Hlen.
  - destruct (IH Hlen) as (i & y & Hi & Hy). by exists (S i), y.
  - exists 0, x. split; [done | congruence].
Qed.

Lemma bind_units_lookup {X} (f : X → list ()) (l : list X) i x :
  l !! i = Some x → f x ≠ [] → 0 < length (l ≫= f).
Proof.
  intros Hi Hx. destruct (insert_middle l i x x Hi) as (l1 & l2 & -> & _).
  rewrite bind_app, bind_cons, !length_app.
  destruct (f x); [done | simpl; lia].
Qed.

(** No deadlock: while [w.Wait()] has not returned, something can run. *)
Lemma step_progress heap cap locs tr0 tr s :
  Inv heap cap locs tr0 tr s →
  (∀ l, l ∈ locs → is_Some (heap !! l)) →
  d_returned s = false →
  ∃ a s', step heap cap a s = Some s'.
Proof.
  intros [Htr Hev Hsec Hwg Hcalls Hchan Hroom Hret] Hheap Hr.
  unfold step. rewrite Hr.
  destruct (d_range s) as [| l rest] eqn:Hrange; [| by exists ActGo; eauto].
  destruct (d_wg s) as [| n] eqn:Hn.
  { exists ActReturn. eauto. }
  destruct (bind_units_pos live (d_gs s)) as (i & g & Hi & Hlive).
  { simpl in Hwg. lia. }
  exists (ActRun i). rewrite Hi. simpl. unfold stepGoroutine.
  destruct (Hheap (g_secret g)) as [secret Hsecret].
  { rewrite <- Hsec. apply elem_of_app. left. apply list_elem_of_fmap.
    exists g. split; [done |]. by eapply list_elem_of_lookup_2. }
  destruct g as [l p]. simpl in *.
  destruct p as [| r | r | r]; rewrite ?Hsecret; simpl.
  - destruct (SecretsDelete _ _ _). eauto.
  - destruct r as [e |]; [| eauto]. destruct (IsNotFound e); [eauto |].
    rewrite bool_decide_eq_true_2; [eauto |].
    pose proof (bind_units_lookup unsent _ _ _ Hi) as Hpos.
    unfold unsent at 1 in Hpos. simpl in Hpos. specialize (Hpos ltac:(done)). lia.
  - rewrite Hn. eauto.
  - by unfold live in Hlive.
Qed.

(** Every run that has started can be completed, and is complete after
    exactly [stepsLeft] further picks whatever the scheduler does. *)
Lemma exec_complete heap cap locs tr0 n : ∀ tr s,
  stepsLeft s = n →
  Inv heap cap locs tr0 tr s →
  (∀ l, l ∈ locs → is_Some (heap !! l)) →
  ∃ sched s', exec heap cap sched s = Some s' ∧ d_returned s' = true.
Proof.
  induction n as [| n IH]; intros tr s Hn Hinv Hheap.
  - exists [], s. split; [done |]. unfold stepsLeft in Hn.
    destruct (d_returned s); [done | simpl in Hn; lia].
  - destruct (d_returned s) eqn:Hr; [by exists [], s |].
    destruct (step_progress _ _ _ _ _ _ Hinv Hheap Hr) as (a & s1 & Hstep).
    destruct (step_inv _ _ _ _ _ _ _ _ Hinv Hstep) as (tr1 & Hinv1 & Hm).
    destruct (IH _ s1 ltac:(lia) Hinv1 Hheap) as (sched & s' & Hexec & Hret).
    exists (a :: sched), s'. simpl. by rewrite Hstep.
Qed.

Lemma bind_units_zero {X} (f : X → list ()) (l : list X) :
  length (l ≫= f) = 0 → Forall (λ x, f x = []) l.
Proof.
  induction l as [| x l IH]; [done |]. rewrite bind_cons, length_app. intros Hlen.
  constructor; [| apply IH; lia]. destruct (f x); [done | simpl in Hlen; lia].
Qed.

(** When [w.Wait()] has returned, a goroutine was started for every entry
    and each of them has run to its end. *)
Lemma Inv_returned heap cap locs tr0 tr s :
  Inv heap cap locs tr0 tr s → d_returned s = true →
  Forall exited (d_gs s) ∧ g_secret <$> d_gs s = locs.
Proof.
  intros [Htr Hev Hsec Hwg Hcalls Hchan Hroom Hret] Hr.
  destruct (Hret Hr) as [Hrange Hn]. rewrite Hrange, app_nil_r in Hsec.
  split; [| done]. rewrite Hrange, Hn in Hwg. simpl in Hwg.
  eapply Forall_impl; [apply (bind_units_zero live); lia |].
  intros [l p] Hlive. unfold live in Hlive. simpl in Hlive.
  destruct p; try done. by eexists.
Qed.

Lemma called_exited heap gs :
  Forall exited gs →
  (gs ≫= called heap).*1 = omap (target heap) (g_secret <$> gs).
Proof.
  induction 1 as [| [l p] gs [r Hp] _ IH]; [done |]. simpl in Hp. subst p.
  rewrite bind_cons, fmap_app, IH. unfold called at 1, target at 2. simpl.
  by destruct (heap !! l).
Qed.

Lemma sent_called heap g x :
  x ∈ sent heap g →
  ∃ sec e, (Secret_Namespace sec, Secret_Name sec, Some e) ∈ called heap g
           ∧ IsNotFound e = false ∧ x = errDelete sec e.
Proof.
  unfold sent, called. destruct g as [l p]. simpl.
  destruct p as [| r | [e |] | [e |]]; try (by intros ?%elem_of_nil);
    destruct (heap !! l) as [sec |]; try (by intros ?%elem_of_nil);
    destruct (IsNotFound e) eqn:He; try (by intros ?%elem_of_nil);
    intros ->%list_elem_of_singleton; exists sec, e; by rewrite list_elem_of_singleton.
Qed.

Lemma called_sent heap g ns n e :
  exited g → (ns, n, Some e) ∈ called heap g → IsNotFound e = false →
  sent heap g ≠ [].
Proof.
  intros [r Hp]. unfold sent, called. destruct g as [l p]. simpl in *. subst p.
  destruct (heap !! l) as [sec |]; [| by intros ?%elem_of_nil].
  intros Hin%list_elem_of_singleton Hnf. injection Hin as _ _ <-. by rewrite Hnf.
Qed.

End Machine.

(** ** Runs of the bulk delete *)

Section BulkDelete.
Context {Cluster : Type} `{!KubeClient Cluster}.
Implicit Types (heap : gmap positive Secret) (s : dstate (Cluster := Cluster))
  (w : World (Cluster := Cluster)) (secretsMap : gmap string positive).

Lemma deleteSecrets_run heap secretsMap order sched w s :
  order ≡ₚ map_to_list secretsMap →
  exec heap (size secretsMap) sched (deleteSecrets_init w [] order) = Some s →
  Inv heap (size secretsMap) order.*2 (trace w) (since w (d_world s)) s.
Proof.
  intros Horder Hexec.
  assert (Hlen : length order ≤ size secretsMap).
  { by rewrite Horder, length_map_to_list. }
  destruct (exec_inv _ _ _ _ _ _ _ _ (Inv_init heap _ w order Hlen) Hexec)
    as (tr & Hinv & _).
  simpl in Hinv. unfold since. by rewrite (inv_trace _ _ _ _ _ _ Hinv), drop_app_length.
Qed.

(** [deleteSecrets] always returns: every schedule that can run is a prefix
    of one that ends with the return of [w.Wait()]. *)
Lemma deleteSecrets_returns heap secretsMap order sched w s :
  order ≡ₚ map_to_list secretsMap →
  (∀ k l, secretsMap !! k = Some l → is_Some (heap !! l)) →
  exec heap (size secretsMap) sched (deleteSecrets_init w [] order) = Some s →
  ∃ sched' s',
    exec heap (size secretsMap) (sched ++ sched') (deleteSecrets_init w [] order) = Some s'
    ∧ d_returned s' = true.
Proof.
  intros Horder Hheap Hexec.
  pose proof (deleteSecrets_run _ _ _ _ _ _ Horder Hexec) as Hinv.
  destruct (exec_complete heap (size secretsMap) order.*2 (trace w) _ _ s eq_refl Hinv)
    as (sched' & s' & Hexec' & Hret).
  - intros l ((k & l') & -> & Hin)%list_elem_of_fmap. simpl.
    rewrite Horder in Hin. apply elem_of_map_to_list in Hin. eauto.
  - exists sched', s'. by rewrite exec_app, Hexec.
Qed.

(** The requests of a complete run: one per entry of the map, for the
    namespace and name found behind the entry's pointer; and [w.Wait()]
    returns only when every goroutine has finished. *)
Lemma deleteSecrets_requests heap secretsMap order sched w s :
  order ≡ₚ map_to_list secretsMap →
  exec heap (size secretsMap) sched (deleteSecrets_init w [] order) = Some s →
  d_returned s = true →
  (deletions (since w (d_world s))).*1 ≡ₚ omap (target heap) order.*2
  ∧ Forall exited (d_gs s) ∧ length (d_gs s) = size secretsMap.
Proof.
  intros Horder Hexec Hret.
  pose proof (deleteSecrets_run _ _ _ _ _ _ Horder Hexec) as Hinv.
  destruct (Inv_returned _ _ _ _ _ _ Hinv Hret) as [Hexit Hsec].
  split; [| split; [done |]].
  - by rewrite (inv_calls _ _ _ _ _ _ Hinv), called_exited, Hsec.
  - apply (f_equal length) in Hsec. rewrite !length_fmap in Hsec.
    by rewrite Hsec, Horder, length_map_to_list.
Qed.


(** The outcomes recorded in the trace are the answers of the API server:
    what holds of every answer holds of every outcome of a run. *)
Lemma step_answers (Q : option APIError → Prop) heap cap a s s' :
  (∀ c ns n, Q (SecretsDelete c ns n).2) →
  step heap cap a s = Some s' →
  ∃ tr, trace (d_world s') = trace (d_world s) ++ tr
        ∧ Forall (λ d, Q d.2) (deletions tr).
Proof.
  intros HQ Hstep. unfold step in Hstep. destruct (d_returned s); [done |].
  destruct a as [| i |].
  - destruct (d_range s); [done |]. injection Hstep as <-.
    exists []. by rewrite app_nil_r.
  - destruct (d_gs s !! i) as [g |]; [| done]. simpl in Hstep.
    unfold stepGoroutine in Hstep. destruct (g_pc g) as [| r | r | r].
    + destruct (heap !! g_secret g) as [secret |]; [| done]. simpl in Hstep.
      pose proof (HQ (cluster (d_world s)) (Secret_Namespace secret)
                    (Secret_Name secret)) as Hans.
      destruct (SecretsDelete _ _ _) as [c r]. injection Hstep as <-.
      eexists [_]. split; [done |]. by repeat constructor.
    + destruct (heap !! g_secret g) as [secret |]; [| done]. simpl in Hstep.
      destruct r as [e |]; [destruct (IsNotFound e) |].
      * injection Hstep as <-. eexists [_]. by split.
      * case_bool_decide; [| done]. injection Hstep as <-.
        exists []. by rewrite app_nil_r.
      * injection Hstep as <-. eexists [_]. by split.
    + destruct (d_wg s); [done |]. injection Hstep as <-.
      exists []. by rewrite app_nil_r.
    + done.
  - destruct (d_range s); [| done]. destruct (d_wg s); [| done].
    injection Hstep as <-. exists []. by rewrite app_nil_r.
Qed.

Lemma exec_answers (Q : option APIError → Prop) heap cap sched : ∀ s s',
  (∀ c ns n, Q (SecretsDelete c ns n).2) →
  exec heap cap sched s = Some s' →
  ∃ tr, trace (d_world s') = trace (d_world s) ++ tr
        ∧ Forall (λ d, Q d.2) (deletions tr).
Proof.
  induction sched as [| a sched IH]; intros s s' HQ Hexec; simpl in Hexec.
  - injection Hexec as <-. exists []. by rewrite app_nil_r.
  - destruct (step heap cap a s) as [s1 |] eqn:Hstep; [| done]. simpl in Hexec.
    destruct (step_answers Q _ _ _ _ _ HQ Hstep) as (tr1 & Htr1 & HQ1).
    destruct (IH _ _ HQ Hexec) as (tr2 & Htr2 & HQ2).
    exists (tr1 ++ tr2). rewrite Htr2, Htr1, (assoc_L (++)). split; [done |].
    rewrite deletions_app. by apply Forall_app.
Qed.

(** The outcomes of a complete bulk delete are answers of the API server. *)
Lemma bulkDelete_answers (Q : option APIError → Prop)
    heap secretsMap order sched w w' r :
  (∀ c ns n, Q (SecretsDelete c ns n).2) →
  bulkDelete secretsMap heap order sched w = Some (w', r) →
  Forall (λ d, Q d.2) (deletions (since w w')).
Proof.
  intros HQ Hrun. unfold bulkDelete in Hrun. case_bool_decide; [| done].
  destruct (exec _ _ _ _) as [s |] eqn:Hexec; [| done]. simpl in Hrun.
  destruct (d_returned s); [| done]. injection Hrun as <- <-.
  destruct (exec_answers Q _ _ _ _ _ HQ Hexec) as (tr & Htr & Hall).
  simpl in Htr. unfold since. by rewrite Htr, drop_app_length.
Qed.


(** The channel of a run holds no error while every outcome so far is
    not-found. *)
Lemma not_found_sends_nothing heap secretsMap order sched w s :
  order ≡ₚ map_to_list secretsMap →
  exec heap (size secretsMap) sched (deleteSecrets_init w [] order) = Some s →
  Forall (λ d, notFound d.2 = true) (deletions (since w (d_world s))) →
  d_errCh s = [].
Proof.
  intros Horder Hexec Hnf.
  pose proof (deleteSecrets_run _ _ _ _ _ _ Horder Hexec) as Hinv.
  destruct (d_errCh s) as [| x ch] eqn:Hx; [done |]. exfalso.
  assert (Hin : x ∈ d_gs s ≫= sent heap).
  { rewrite <- (inv_chan _ _ _ _ _ _ Hinv), Hx. by left. }
  apply list_elem_of_bind in Hin as (g & Hsent & Hg).
  apply sent_called in Hsent as (sec & e & Hcalled & He & _).
  assert (Hd : (Secret_Namespace sec, Secret_Name sec, Some e)
                 ∈ deletions (since w (d_world s))).
  { rewrite (inv_calls _ _ _ _ _ _ Hinv). apply list_elem_of_bind. eauto. }
  rewrite Forall_forall in Hnf. specialize (Hnf _ Hd). simpl in Hnf. congruence.
Qed.

(** After the join, a failure other than not-found among the outcomes
    makes the receive return the error of one failed request. *)
Lemma hard_failure_is_received heap secretsMap order sched w s :
  order ≡ₚ map_to_list secretsMap →
  exec heap (size secretsMap) sched (deleteSecrets_init w [] order) = Some s →
  d_returned s = true →
  Exists (λ d, hardFailure d.2 = true) (deletions (since w (d_world s))) →
  ∃ ns name e,
    (ns, name, Some e) ∈ deletions (since w (d_world s))
    ∧ IsNotFound e = false
    ∧ bulkDelete secretsMap heap order sched w
      = Some (d_world s,
              Some ("failed to delete secrets: "
                      +:+ ("failed to delete secret '" +:+ ns +:+ "/" +:+ name
                             +:+ "': " +:+ Error e))).
Proof.
  intros Horder Hexec Hret Hhard.
  pose proof (deleteSecrets_run _ _ _ _ _ _ Horder Hexec) as Hinv.
  destruct (Inv_returned _ _ _ _ _ _ Hinv Hret) as [Hexit _].
  apply Exists_exists in Hhard as ([[ns n] [e |]] & Hd & He); [| done].
  simpl in He. apply negb_true_iff in He.
  rewrite (inv_calls _ _ _ _ _ _ Hinv) in Hd.
  apply list_elem_of_bind in Hd as (g & Hcalled & Hg).
  rewrite Forall_forall in Hexit.
  pose proof (called_sent _ _ _ _ _ (Hexit _ Hg) Hcalled He) as Hsent.
  destruct (d_errCh s) as [| x ch] eqn:Hx.
  { pose proof (inv_chan _ _ _ _ _ _ Hinv) as Hchan. rewrite Hx in Hchan.
    apply Permutation_nil_l in Hchan. exfalso. apply Hsent.
    destruct (sent heap g) as [| y ?] eqn:Hy; [done |].
    assert (y ∈ d_gs s ≫= sent heap) as Hin.
    { apply list_elem_of_bind. exists g. split; [| done]. rewrite Hy. by left. }
    rewrite <- Hchan in Hin. by apply elem_of_nil in Hin. }
  assert (Hin : x ∈ d_gs s ≫= sent heap).
  { rewrite <- (inv_chan _ _ _ _ _ _ Hinv), Hx. by left. }
  apply list_elem_of_bind in Hin as (g' & Hsent' & Hg').
  apply sent_called in Hsent' as (sec & e' & Hcalled' & He' & ->).
  exists (Secret_Namespace sec), (Secret_Name sec), e'. split; [| split; [done |]].
  + rewrite (inv_calls _ _ _ _ _ _ Hinv). apply list_elem_of_bind. eauto.
  + unfold bulkDelete. rewrite bool_decide_eq_true_2 by done.
    rewrite Hexec. simpl. by rewrite Hret, Hx.
Qed.

(** A run that has started continues to the return of [w.Wait()], keeping
    what it has shown so far. *)
Lemma bulkDelete_continues heap secretsMap order sched w s :
  order ≡ₚ map_to_list secretsMap →
  (∀ k l, secretsMap !! k = Some l → is_Some (heap !! l)) →
  exec heap (size secretsMap) sched (deleteSecrets_init w [] order) = Some s →
  ∃ sched' s' r,
    exec heap (size secretsMap) (sched ++ sched') (deleteSecrets_init w [] order)
    = Some s'
    ∧ d_returned s' = true
    ∧ bulkDelete secretsMap heap order (sched ++ sched') w = Some (d_world s', r)
    ∧ ∃ tr, since w (d_world s') = since w (d_world s) ++ tr.
Proof.
  intros Horder Hheap Hexec.
  destruct (deleteSecrets_returns _ _ _ _ _ _ Horder Hheap Hexec)
    as (sched' & s' & Hexec' & Hret).
  exists sched', s'. eexists. split; [done |]. split; [done |]. split.
  - unfold bulkDelete. rewrite bool_decide_eq_true_2 by done.
    rewrite Hexec'. simpl. by rewrite Hret.
  - rewrite exec_app, Hexec in Hexec'. simpl in Hexec'.
    destruct (exec_answers (λ _, True) _ _ _ _ _ ltac:(done) Hexec')
      as (tr & Htr & _).
    exists tr. pose proof (deleteSecrets_run _ _ _ _ _ _ Horder Hexec) as Hinv.
    rewrite (inv_trace _ _ _ _ _ _ Hinv) in Htr. simpl in Htr.
    unfold since at 1. by rewrite Htr, <- (assoc_L (++)), drop_app_length.
Qed.

(** C2. Every run of the bulk delete over handles that point to secrets
    can be continued until [w.Wait()] returns and the bulk delete hands
    its result to the caller; that result is nil when every deletion
    request of the run was answered not-found, in particular when the API
    server answers not-found to every deletion. At every point of a run at
    which every request made so far was answered not-found, [errCh] is
    empty: not-found is handled in the goroutine and never sent. *)
Theorem C2_not_found_is_no_error heap secretsMap order sched w s :
  order ≡ₚ map_to_list secretsMap →
  exec heap (size secretsMap) sched (deleteSecrets_init w [] order) = Some s →
  (Forall (λ d, notFound d.2 = true) (deletions (since w (d_world s))) →
   d_errCh s = []
   ∧ (d_returned s = true →
      bulkDelete secretsMap heap order sched w = Some (d_world s, None)))
  ∧ ((∀ k l, secretsMap !! k = Some l → is_Some (heap !! l)) →
     ∃ sched' w' r,
       bulkDelete secretsMap heap order (sched ++ sched') w = Some (w', r)
       ∧ (Forall (λ d, notFound d.2 = true) (deletions (since w w')) → r = None)
       ∧ ((∀ c ns n, notFound (SecretsDelete c ns n).2 = true) → r = None)).
Proof.
  intros Horder Hexec.
  assert (Hnil : ∀ sched0 s0,
            exec heap (size secretsMap) sched0 (deleteSecrets_init w [] order)
            = Some s0 →
            Forall (λ d, notFound d.2 = true) (deletions (since w (d_world s0))) →
            d_returned s0 = true →
            bulkDelete secretsMap heap order sched0 w = Some (d_world s0, None)).
  { intros sched0 s0 Hexec0 Hnf Hret. unfold bulkDelete.
    rewrite bool_decide_eq_true_2 by done. rewrite Hexec0. simpl.
    by rewrite Hret, (not_found_sends_nothing _ _ _ _ _ _ Horder Hexec0 Hnf). }
  split.
  - intros Hnf. split; [by eapply not_found_sends_nothing | by apply Hnil].
  - intros Hheap.
    destruct (bulkDelete_continues _ _ _ _ _ _ Horder Hheap Hexec)
      as (sched' & s' & r & Hexec' & Hret & Hbulk & _).
    exists sched', (d_world s'), r. split; [done |].
    assert (Hres : Forall (λ d, notFound d.2 = true)
                     (deletions (since w (d_world s'))) → r = None).
    { intros Hnf. rewrite (Hnil _ _ Hexec' Hnf Hret) in Hbulk.
      by injection Hbulk as <-. }
    split; [done |]. intros Hapi. apply Hres.
    by eapply (bulkDelete_answers (λ o, notFound o = true)).
Qed.


(** C3. The channel has room for one error per entry, so a goroutine that
    is about to report can always take its step (a send never blocks).
    Every run over handles that point to secrets can be continued until
    the bulk delete returns; when a deletion of the run has failed with an
    error other than not-found, before or after the point reached, the
    single non-blocking receive finds an error and the bulk delete returns
    the error of one failed request; whatever else is in the channel is
    dropped. *)
Theorem C3_one_failure_is_returned heap secretsMap order sched w s :
  order ≡ₚ map_to_list secretsMap →
  exec heap (size secretsMap) sched (deleteSecrets_init w [] order) = Some s →
  length (d_errCh s) ≤ size secretsMap
  ∧ (∀ i g err, d_gs s !! i = Some g → g_pc g = PcReport err →
       is_Some (heap !! g_secret g) →
       is_Some (step heap (size secretsMap) (ActRun i) s))
  ∧ (d_returned s = true →
     Exists (λ d, hardFailure d.2 = true) (deletions (since w (d_world s))) →
     ∃ ns name e,
       (ns, name, Some e) ∈ deletions (since w (d_world s))
       ∧ IsNotFound e = false
       ∧ bulkDelete secretsMap heap order sched w
         = Some (d_world s,
                 Some ("failed to delete secrets: "
                         +:+ ("failed to delete secret '" +:+ ns +:+ "/" +:+ name
                                +:+ "': " +:+ Error e))))
  ∧ ((∀ k l, secretsMap !! k = Some l → is_Some (heap !! l)) →
     ∃ sched' w' r,
       bulkDelete secretsMap heap order (sched ++ sched') w = Some (w', r)
       ∧ (Exists (λ d, hardFailure d.2 = true) (deletions (since w (d_world s)))
          ∨ Exists (λ d, hardFailure d.2 = true) (deletions (since w w')) →
          ∃ ns name e,
            (ns, name, Some e) ∈ deletions (since w w')
            ∧ IsNotFound e = false
            ∧ r = Some ("failed to delete secrets: "
                          +:+ ("failed to delete secret '" +:+ ns +:+ "/" +:+ name
                                 +:+ "': " +:+ Error e)))).
Proof.
  intros Horder Hexec.
  pose proof (deleteSecrets_run _ _ _ _ _ _ Horder Hexec) as Hinv.
  split; [| split; [| split]].
  - pose proof (inv_room _ _ _ _ _ _ Hinv). lia.
  - intros i [l p] err Hi Hp [sec Hsec]. simpl in *. subst p.
    destruct (d_returned s) eqn:Hret.
    { destruct (Inv_returned _ _ _ _ _ _ Hinv Hret) as [Hexit _].
      rewrite Forall_forall in Hexit.
      destruct (Hexit _ (list_elem_of_lookup_2 _ _ _ Hi)) as [r Hr]. done. }
    unfold step. rewrite Hret, Hi. simpl. unfold stepGoroutine. simpl.
    rewrite Hsec. simpl. destruct err as [e |]; [| eauto].
    destruct (IsNotFound e); [eauto |].
    rewrite bool_decide_eq_true_2; [eauto |].
    pose proof (inv_room _ _ _ _ _ _ Hinv) as Hroom.
    pose proof (bind_units_lookup unsent _ _ _ Hi) as Hpos.
    unfold unsent at 1 in Hpos. simpl in Hpos. specialize (Hpos ltac:(done)). lia.
  - by apply hard_failure_is_received.
  - intros Hheap.
    destruct (bulkDelete_continues _ _ _ _ _ _ Horder Hheap Hexec)
      as (sched' & s' & r & Hexec' & Hret & Hbulk & tr & Htr).
    exists sched', (d_world s'), r. split; [done |]. intros Hhard.
    assert (Hhard' : Exists (λ d, hardFailure d.2 = true)
                       (deletions (since w (d_world s')))).
    { destruct Hhard as [Hhard | Hhard]; [| done].
      rewrite Htr, deletions_app. apply Exists_app. by left. }
    destruct (hard_failure_is_received _ _ _ _ _ _ Horder Hexec' Hret Hhard')
      as (ns & name & e & Hin & He & Hres).
    exists ns, name, e. split; [done |]. split; [done |].
    rewrite Hres in Hbulk. by injection Hbulk as <-.
Qed.

(** The requests of the bulk delete, seen from the caller. *)
Lemma bulkDelete_requests heap secretsMap order sched w w' r :
  bulkDelete secretsMap heap order sched w = Some (w', r) →
  trace w' = trace w ++ since w w'
  ∧ (deletions (since w w')).*1 ≡ₚ omap (target heap) (map_to_list secretsMap).*2.
Proof.
  unfold bulkDelete. intros Hrun. case_bool_decide as Horder; [| done].
  destruct (exec _ _ _ _) as [s |] eqn:Hexec; [| done]. simpl in Hrun.
  destruct (d_returned s) eqn:Hret; [| done]. injection Hrun as <- <-.
  destruct (deleteSecrets_requests _ _ _ _ _ _ Horder Hexec Hret) as (Hreq & _ & _).
  split; [| by rewrite <- Horder].
  apply (inv_trace _ _ _ _ _ _ (deleteSecrets_run _ _ _ _ _ _ Horder Hexec)).
Qed.

End BulkDelete.

(** ** Runs of the command *)

Section CommandFacts.
Context {Cluster : Type} `{!KubeClient Cluster}.
Variables (AdminRegistryLabels DockerJSONName : string).
Variable Unmarshal : list Byte.byte → string + Registry.
Variables (username server : string).
Variable NewKubeClient : option string.

Implicit Types (heap : gmap positive Secret) (w : World (Cluster := Cluster))
  (secretsMap : gmap string positive) (items : list Secret).

Local Abbreviation rangeAuths := (rangeAuths username server).
Local Abbreviation rangeItems := (rangeItems DockerJSONName Unmarshal username server).
Local Abbreviation filterSecrets := (filterSecrets DockerJSONName Unmarshal username server).
Local Abbreviation matchesFlags := (matchesFlags DockerJSONName Unmarshal username server).
Local Abbreviation decodes := (decodes DockerJSONName Unmarshal).
Local Abbreviation RunE_setup :=
  (RunE_setup AdminRegistryLabels DockerJSONName Unmarshal username server NewKubeClient).
Local Abbreviation setupEvents := (setupEvents AdminRegistryLabels).
Local Abbreviation RunE :=
  (RunE AdminRegistryLabels DockerJSONName Unmarshal username server NewKubeClient).

(** *** The filter loop *)

Lemma rangeAuths_list key l (auths : list (string * Auth)) secretsMap :
  rangeAuths key l auths secretsMap
  = if existsb (λ '(sv, a), bool_decide (sv = server ∧ Username a = username)) auths
    then <[key := l]> secretsMap else secretsMap.
Proof.
  revert secretsMap. induction auths as [| [sv a] auths IH]; intros m; [done |].
  unfold Registry.rangeAuths in *. simpl. rewrite IH.
  case_bool_decide; simpl; [| done].
  rewrite insert_insert_eq. by destruct (existsb _ auths).
Qed.

Lemma rangeAuths_map key l (registry : Registry) secretsMap :
  rangeAuths key l (map_to_list (Auths registry)) secretsMap
  = if match Auths registry !! server with
       | Some secretAuth => bool_decide (Username secretAuth = username)
       | None => false
       end
    then <[key := l]> secretsMap else secretsMap.
Proof.
  rewrite rangeAuths_list.
  match goal with |- (if ?b then _ else _) = (if ?c then _ else _) =>
    assert (b = c) as ->; [| done] end.
  apply eq_true_iff_eq. rewrite existsb_exists. split.
  - intros ([sv a] & Hin & Hm). apply bool_decide_eq_true in Hm as [-> Hu].
    apply list_elem_of_In, elem_of_map_to_list in Hin. rewrite Hin.
    by apply bool_decide_eq_true.
  - destruct (Auths registry !! server) as [a |] eqn:Ha; [| done].
    intros Hu%bool_decide_eq_true. exists (server, a). split.
    + by apply list_elem_of_In, elem_of_map_to_list.
    + by apply bool_decide_eq_true.
Qed.

(** One iteration per item: the map gains the item's name when the item
    matches; the loop variable holds the item. *)
Lemma rangeItems_cons l item items secretsMap heap :
  rangeItems l (item :: items) secretsMap heap
  = if decodes item then
      rangeItems l items
        (if matchesFlags item then <[Secret_Name item := l]> secretsMap else secretsMap)
        (<[l := item]> heap)
    else
      match Unmarshal (default [] (Secret_Data item !! DockerJSONName)) with
      | inl err => inl ("failed unmarshal secret data '.dockerconfigjson': " +:+ err)
      | inr _ => inr (secretsMap, heap)
      end.
Proof.
  simpl. unfold Registry.decodes, Registry.matchesFlags.
  destruct (Unmarshal _) as [err | registry]; [done |].
  by rewrite rangeAuths_map.
Qed.

(** Every entry of the map holds the address of the loop variable, and what
    is stored there after the loop is the last item listed. *)
Lemma rangeItems_aliases l items : ∀ secretsMap heap m h,
  rangeItems l items secretsMap heap = inr (m, h) →
  (∀ k l', m !! k = Some l' → l' = l ∨ secretsMap !! k = Some l')
  ∧ h !! l = match last items with Some item => Some item | None => heap !! l end.
Proof.
  induction items as [| item items IH]; intros m0 h0 m h Hrun.
  - injection Hrun as <- <-. split; [eauto | done].
  - rewrite rangeItems_cons in Hrun. destruct (decodes item) eqn:Hd.
    + apply IH in Hrun as [Hm Hh]. split.
      * intros k l' Hk. destruct (Hm _ _ Hk) as [-> | Hk0]; [by left |].
        destruct (matchesFlags item); [| by right].
        apply lookup_insert_Some in Hk0 as [[_ <-] | [_ Hk0]]; eauto.
      * rewrite Hh. destruct items as [| item' items]; simpl.
        { by rewrite lookup_insert_eq. }
        change (last (item :: item' :: items)) with (last (item' :: items)).
        destruct (last (item' :: items)) eqn:Hlast; [done |].
        by apply last_None in Hlast.
    + unfold Registry.decodes in Hd. by destruct (Unmarshal _).
Qed.

Lemma filterSecrets_aliases items m h :
  filterSecrets items = inr (m, h) →
  (∀ k l, m !! k = Some l → l = secretVar) ∧ h !! secretVar = last items.
Proof.
  intros [Hm Hh]%rangeItems_aliases. split.
  - intros k l Hk. destruct (Hm _ _ Hk) as [-> | Hk0]; [done |].
    by rewrite lookup_empty in Hk0.
  - rewrite Hh. destruct (last items); [done |]. apply lookup_empty.
Qed.

Lemma rangeItems_no_match l items : ∀ secretsMap heap m h,
  Forall (λ item, matchesFlags item = false) items →
  rangeItems l items secretsMap heap = inr (m, h) → m = secretsMap.
Proof.
  induction items as [| item items IH]; intros m0 h0 m h Hno Hrun.
  - by injection Hrun as <- <-.
  - rewrite rangeItems_cons in Hrun. inversion Hno as [| ? ? Hitem Hrest]; subst.
    rewrite Hitem in Hrun. destruct (decodes item) eqn:Hd; [by eapply IH |].
    unfold Registry.decodes in Hd. by destruct (Unmarshal _).
Qed.

Lemma rangeItems_decodes l items : ∀ secretsMap heap,
  Forall (λ item, decodes item = true) items →
  ∃ m h, rangeItems l items secretsMap heap = inr (m, h).
Proof.
  induction items as [| item items IH]; intros m0 h0 Hall; [by eexists _, _ |].
  rewrite rangeItems_cons. inversion Hall as [| ? ? Hitem Hrest]; subst.
  rewrite Hitem. by apply IH.
Qed.

(** *** The rewrite of the ServiceAccount *)

Lemma pruneImagePullSecrets_filter secretsMap (ips : list LocalObjectReference) :
  pruneImagePullSecrets secretsMap ips
  = filter (λ r, LocalObjectReference_Name r ∉ dom secretsMap) ips.
Proof.
  unfold pruneImagePullSecrets.
  enough (∀ acc, foldl (λ acc r,
             match secretsMap !! LocalObjectReference_Name r with
             | None => acc ++ [r] | Some _ => acc end) acc ips
           = acc ++ filter (λ r, LocalObjectReference_Name r ∉ dom secretsMap) ips)
    as Hgen by apply (Hgen []).
  induction ips as [| r ips IH]; intros acc; simpl.
  - by rewrite app_nil_r.
  - rewrite IH, filter_cons.
    destruct (secretsMap !! LocalObjectReference_Name r) as [l |] eqn:Hr.
    + rewrite decide_False; [done |]. intros Hnot. apply Hnot, elem_of_dom. eauto.
    + rewrite decide_True by by apply not_elem_of_dom.
      by rewrite <- (assoc_L (++)).
Qed.


(** *** The shape of a run *)

Lemma since_app w w' tr : trace w' = trace w ++ tr → since w w' = tr.
Proof. unfold since. intros ->. apply drop_app_length. Qed.

Ltac since_events :=
  match goal with
  | |- context [since ?w ?w'] =>
      let H := fresh in
      eassert (H : trace w' = trace w ++ _)
        by (simpl; rewrite <- ?(assoc_L (++)); reflexivity);
      rewrite (since_app _ _ _ H); clear H
  end.

Lemma RunE_inv order sched w w' r :
  RunE order sched w = Some (w', r) →
  (deletions (since w w') = [] ∧ updates (since w w') = [] ∧ cluster w' = cluster w)
  ∨ (∃ items m h defaultSa e,
       SecretsList (cluster w) "default" AdminRegistryLabels = inr items
       ∧ filterSecrets items = inr (m, h)
       ∧ ServiceAccountsGet (cluster w) "default" "default" = inr defaultSa
       ∧ since w w' = setupEvents (desiredSa m defaultSa) (Some e))
  ∨ (∃ items m h defaultSa c,
       SecretsList (cluster w) "default" AdminRegistryLabels = inr items
       ∧ filterSecrets items = inr (m, h)
       ∧ ServiceAccountsGet (cluster w) "default" "default" = inr defaultSa
       ∧ ServiceAccountsUpdate (cluster w) "default" (desiredSa m defaultSa) = (c, None)
       ∧ ∃ w1, cluster w1 = c
           ∧ since w w1 = setupEvents (desiredSa m defaultSa) None
                            ++ [EvPrintf (msgUpdated (desiredSa m defaultSa))]
           ∧ since w w' = since w w1 ++ since w1 w'
           ∧ Forall deleteEvent (since w1 w')
           ∧ bulkDelete m h order sched w1 = Some (w', r)).
Proof.
  unfold Registry.RunE, Registry.RunE_setup. intros Hrun.
  destruct NewKubeClient as [err |].
  { left. injection Hrun as <- <-. unfold since. by rewrite drop_all. }
  destruct (SecretsList _ _ _) as [err | items] eqn:Hlist.
  { left. injection Hrun as <- <-. by since_events. }
  destruct (filterSecrets items) as [err | [m h]] eqn:Hfilter.
  { left. injection Hrun as <- <-. by since_events. }
  case_bool_decide as Hsize.
  { left. injection Hrun as <- <-. by since_events. }
  simpl in Hrun. destruct (ServiceAccountsGet _ _ _) as [err | defaultSa] eqn:Hget.
  { left. injection Hrun as <- <-. by since_events. }
  destruct (ServiceAccountsUpdate _ _ _) as [c [e |]] eqn:Hupd.
  - right. left. injection Hrun as <- <-. exists items, m, h, defaultSa, e.
    repeat split; try done. by since_events.
  - right. right. exists items, m, h, defaultSa, c. repeat split; try done.
    match type of Hrun with
    | Registry.bulkDelete _ _ _ _ ?w0 = _ => set (w1 := w0) in *
    end.
    assert (Hw1 : trace w1 = trace w ++ (setupEvents (desiredSa m defaultSa) None
                    ++ [EvPrintf (Registry.msgUpdated (desiredSa m defaultSa))])).
    { subst w1. simpl. by rewrite <- !(assoc_L (++)). }
    exists w1. split; [done |]. split; [by apply since_app |].
    assert (Hbulk := Hrun).
    unfold bulkDelete in Hrun. case_bool_decide as Horder; [| done].
    destruct (exec _ _ _ _) as [s |] eqn:Hexec; [| done]. simpl in Hrun.
    destruct (d_returned s); [| done]. injection Hrun as <- <-.
    pose proof (deleteSecrets_run _ _ _ _ _ _ Horder Hexec) as Hinv.
    pose proof (inv_trace _ _ _ _ _ _ Hinv) as Htr.
    split; [| split; [by apply (inv_events _ _ _ _ _ _ Hinv) | done]].
    rewrite (since_app w w1 _ Hw1). apply since_app.
    by rewrite Htr, Hw1, <- !(assoc_L (++)).
Qed.


Lemma deleteEvent_updates (tr : list event) :
  Forall deleteEvent tr → updates tr = [].
Proof.
  induction 1 as [| e tr He _ IH]; [done |]. by destruct e.
Qed.

Lemma deletions_middle (pre post : list event) ns n o :
  (ns, n, o) ∈ deletions (pre ++ EvDelete ns n o :: post).
Proof. rewrite deletions_app. apply elem_of_app. right. by left. Qed.

(** The keys of the map are the names of the listed secrets that match. *)
Lemma rangeItems_dom l items : ∀ secretsMap heap m h,
  rangeItems l items secretsMap heap = inr (m, h) →
  ∀ k, k ∈ dom m ↔
       k ∈ dom secretsMap
       ∨ ∃ item, item ∈ items ∧ matchesFlags item = true ∧ Secret_Name item = k.
Proof.
  induction items as [| item items IH]; intros m0 h0 m h Hrun k.
  - injection Hrun as <- <-. split; [by left |].
    intros [Hk | (item & Hin & _)]; [done | by apply elem_of_nil in Hin].
  - rewrite rangeItems_cons in Hrun. destruct (decodes item) eqn:Hd.
    + rewrite (IH _ _ _ _ Hrun k). destruct (matchesFlags item) eqn:Hm.
      * rewrite dom_insert_L, elem_of_union, elem_of_singleton. split.
        -- intros [[-> | Hk] | (it & Hin & Hit)]; [right | by left | right].
           ++ exists item. split; [by left | done].
           ++ exists it. split; [by right | done].
        -- intros [Hk | (it & [-> | Hin]%elem_of_cons & Hit & Hname)]; eauto.
      * split.
        -- intros [Hk | (it & Hin & Hit)]; [by left | right].
           exists it. split; [by right | done].
        -- intros [Hk | (it & [-> | Hin]%elem_of_cons & Hit & Hname)]; eauto.
           congruence.
    + unfold Registry.decodes in Hd. by destruct (Unmarshal _).
Qed.

Lemma filterSecrets_dom items m h :
  filterSecrets items = inr (m, h) →
  ∀ k, k ∈ dom m ↔
       ∃ item, item ∈ items ∧ matchesFlags item = true ∧ Secret_Name item = k.
Proof.
  intros Hrun k. rewrite (rangeItems_dom _ _ _ _ _ _ Hrun k), dom_empty_L.
  split; [intros [Hk | Hk]; [by apply elem_of_empty in Hk | done] | by right].
Qed.

(** The pointers of the map built by the filter loop point into the
    store. *)
Lemma filterSecrets_no_dangling items m h k l :
  filterSecrets items = inr (m, h) → m !! k = Some l → is_Some (h !! l).
Proof.
  intros Hrun Hk.
  destruct (filterSecrets_aliases _ _ _ Hrun) as [Hm Hh].
  rewrite (Hm _ _ Hk), Hh. apply last_is_Some. intros ->.
  unfold Registry.filterSecrets in Hrun. simpl in Hrun. injection Hrun as <- <-.
  by rewrite lookup_empty in Hk.
Qed.

(** The command returns under some order of the [range] and some schedule
    of the goroutines. *)
Lemma RunE_returns w : ∃ order sched w' r, RunE order sched w = Some (w', r).
Proof.
  unfold Registry.RunE.
  destruct (RunE_setup w) as [w1 [r | m h]] eqn:Hsetup.
  { by exists [], [], w1, r. }
  assert (Hheap : ∀ k l, m !! k = Some l → is_Some (h !! l)).
  { unfold Registry.RunE_setup in Hsetup.
    destruct NewKubeClient; [done |].
    destruct (SecretsList _ _ _) as [err | items]; [done |].
    destruct (filterSecrets items) as [err | [m' h']] eqn:Hfilter; [done |].
    case_bool_decide; [done |]. simpl in Hsetup.
    destruct (ServiceAccountsGet _ _ _); [done |].
    destruct (ServiceAccountsUpdate _ _ _) as [c [e |]]; [done |].
    injection Hsetup as _ <- <-. intros k l. by eapply filterSecrets_no_dangling. }
  destruct (deleteSecrets_returns h m (map_to_list m) [] w1 _ ltac:(done) Hheap eq_refl)
    as (sched & s & Hexec & Hret).
  exists (map_to_list m), sched. unfold bulkDelete.
  rewrite bool_decide_eq_true_2 by done. simpl in Hexec. rewrite Hexec. simpl.
  rewrite Hret. eauto.
Qed.

(** When a listed secret matches and the ServiceAccount can be read, the
    third request of the command is the update of the ServiceAccount with
    the pruned list, and it is the only update of the run. *)
Lemma RunE_sends_update order sched w w' r items secretsMap heap defaultSa :
  NewKubeClient = None →
  SecretsList (cluster w) "default" AdminRegistryLabels = inr items →
  filterSecrets items = inr (secretsMap, heap) →
  secretsMap ≠ ∅ →
  ServiceAccountsGet (cluster w) "default" "default" = inr defaultSa →
  RunE order sched w = Some (w', r) →
  ∃ rest,
    since w w'
    = setupEvents (desiredSa secretsMap defaultSa)
        (ServiceAccountsUpdate (cluster w) "default"
           (desiredSa secretsMap defaultSa)).2
      ++ rest
    ∧ updates rest = [].
Proof.
  unfold Registry.RunE, Registry.RunE_setup.
  intros Hnew Hlist Hfilter Hne Hget Hrun.
  rewrite Hnew, Hlist, Hfilter in Hrun.
  rewrite bool_decide_eq_false_2 in Hrun by by rewrite map_size_empty_iff.
  simpl in Hrun. rewrite Hget in Hrun.
  destruct (ServiceAccountsUpdate _ _ _) as [c [e |]].
  - injection Hrun as <- <-. exists []. rewrite app_nil_r. split; [| done].
    by since_events.
  - match type of Hrun with
    | Registry.bulkDelete _ _ _ _ ?w0 = _ => set (w1 := w0) in *
    end.
    assert (Hw1 : trace w1 = trace w ++ (setupEvents (desiredSa secretsMap defaultSa) None
                    ++ [EvPrintf (Registry.msgUpdated (desiredSa secretsMap defaultSa))])).
    { subst w1. simpl. by rewrite <- !(assoc_L (++)). }
    unfold bulkDelete in Hrun. case_bool_decide as Horder; [| done].
    destruct (exec _ _ _ _) as [s |] eqn:Hexec; [| done]. simpl in Hrun.
    destruct (d_returned s); [| done]. injection Hrun as <- <-.
    pose proof (deleteSecrets_run _ _ _ _ _ _ Horder Hexec) as Hinv.
    exists (EvPrintf (Registry.msgUpdated (desiredSa secretsMap defaultSa))
              :: since w1 (d_world s)).
    split.
    + apply since_app.
      rewrite (inv_trace _ _ _ _ _ _ Hinv), Hw1, <- !(assoc_L (++)). done.
    + simpl. apply deleteEvent_updates, (inv_events _ _ _ _ _ _ Hinv).
Qed.

(** C9. The command can always run to its end. When a listed secret
    matches the flags and the ServiceAccount can be read, the run sends,
    as its third request and before any deletion, one update of the
    ServiceAccount: the object it read, with [ImagePullSecrets] replaced by
    the entries whose names are not keys of the map of matched secrets, in
    their original order, and every other field as read; the keys of that
    map are the names of the listed secrets that match the flags. No run
    sends another update, and none requests a deletion before that update
    has succeeded. *)
Theorem C9_image_pull_secrets_pruned_first order sched w :
  (∃ order' sched' w' r, RunE order' sched' w = Some (w', r))
  ∧ ∀ w' r,
      RunE order sched w = Some (w', r) →
      (∀ items secretsMap heap defaultSa,
         NewKubeClient = None →
         SecretsList (cluster w) "default" AdminRegistryLabels = inr items →
         filterSecrets items = inr (secretsMap, heap) →
         secretsMap ≠ ∅ →
         ServiceAccountsGet (cluster w) "default" "default" = inr defaultSa →
         ∃ rest,
           since w w'
           = setupEvents (desiredSa secretsMap defaultSa)
               (ServiceAccountsUpdate (cluster w) "default"
                  (desiredSa secretsMap defaultSa)).2
             ++ rest
           ∧ updates rest = [])
      ∧ (∀ ns sa o, (ns, sa, o) ∈ updates (since w w') →
           ∃ items secretsMap heap defaultSa,
             SecretsList (cluster w) "default" AdminRegistryLabels = inr items
             ∧ filterSecrets items = inr (secretsMap, heap)
             ∧ (∀ k, k ∈ dom secretsMap ↔
                     ∃ item, item ∈ items ∧ matchesFlags item = true
                             ∧ Secret_Name item = k)
             ∧ ServiceAccountsGet (cluster w) "default" "default" = inr defaultSa
             ∧ updates (since w w') = [("default", sa, o)]
             ∧ ServiceAccount_ImagePullSecrets sa
               = filter (λ ref, LocalObjectReference_Name ref ∉ dom secretsMap)
                   (ServiceAccount_ImagePullSecrets defaultSa)
             ∧ ServiceAccount_Namespace sa = ServiceAccount_Namespace defaultSa
             ∧ ServiceAccount_Name sa = ServiceAccount_Name defaultSa
             ∧ ServiceAccount_Secrets sa = ServiceAccount_Secrets defaultSa)
      ∧ (∀ pre ns n o post,
           since w w' = pre ++ EvDelete ns n o :: post →
           ∃ sa, EvUpdate "default" sa None ∈ pre).
Proof.
  split; [apply RunE_returns |]. intros w' r Hrun.
  split; [intros; by eapply RunE_sends_update |].
  destruct (RunE_inv _ _ _ _ _ Hrun)
    as [(Hdel & Hupd & _)
       | [(items & m & h & defaultSa & e & Hlist & Hfilter & Hget & Hsince)
         | (items & m & h & defaultSa & c & Hlist & Hfilter & Hget & Hupd
            & w1 & _ & Hsince1 & Hsince & Hev & _)]].
  - split.
    + intros ns sa o Hin. rewrite Hupd in Hin. by apply elem_of_nil in Hin.
    + intros pre ns n o post Heq.
      pose proof (deletions_middle pre post ns n o) as Hin.
      rewrite <- Heq, Hdel in Hin. by apply elem_of_nil in Hin.
  - split.
    + intros ns sa o Hin. rewrite Hsince in Hin. simpl in Hin.
      apply list_elem_of_singleton in Hin. injection Hin as -> -> ->.
      exists items, m, h, defaultSa. rewrite Hsince. simpl.
      split; [done |]. split; [done |]. split; [by eapply filterSecrets_dom |].
      split; [done |]. split; [done |].
      split; [apply pruneImagePullSecrets_filter | done].
    + intros pre ns n o post Heq.
      pose proof (deletions_middle pre post ns n o) as Hin.
      rewrite <- Heq, Hsince in Hin. by apply elem_of_nil in Hin.
  - assert (Hupds : updates (since w w')
                    = [("default", desiredSa m defaultSa, None)]).
    { by rewrite Hsince, updates_app, (deleteEvent_updates _ Hev), Hsince1. }
    split.
    + intros ns sa o Hin. rewrite Hupds in Hin.
      apply list_elem_of_singleton in Hin. injection Hin as -> -> ->.
      exists items, m, h, defaultSa.
      split; [done |]. split; [done |]. split; [by eapply filterSecrets_dom |].
      split; [done |]. split; [done |].
      split; [apply pruneImagePullSecrets_filter | done].
    + intros pre ns n o post Heq. rewrite Hsince, Hsince1 in Heq.
      exists (desiredSa m defaultSa).
      destruct pre as [| e1 [| e2 [| e3 [| e4 pre]]]]; try done.
      injection Heq as <- <- <- <- _. do 2 right. by left.
Qed.

(** The loop returns the error of the first listed secret that does not
    decode. *)
Lemma rangeItems_first_error l (pre post : list Secret) bad err :
  ∀ secretsMap heap,
  Forall (λ item, decodes item = true) pre →
  Unmarshal (default [] (Secret_Data bad !! DockerJSONName)) = inl err →
  rangeItems l (pre ++ bad :: post) secretsMap heap
  = inl ("failed unmarshal secret data '.dockerconfigjson': " +:+ err).
Proof.
  intros m0 h0 Hpre Hbad. revert m0 h0.
  induction Hpre as [| item pre Hitem _ IH]; intros m0 h0.
  - simpl. by rewrite Hbad.
  - change ((item :: pre) ++ bad :: post) with (item :: (pre ++ bad :: post)).
    rewrite rangeItems_cons, Hitem. apply IH.
Qed.

(** C10 (as amended). When no listed secret matches the flags, the run
    ends before line 90 whatever else happens: the ServiceAccount is not
    updated, no deletion is requested, the cluster is as it was. What the
    command returns then: the error of [NewKubeClient] when no client is
    obtained; "failed to list secret: " and the error of the listing when
    the listing fails; "failed unmarshal secret data '.dockerconfigjson': "
    and the decoder's error for the first listed secret whose docker
    config does not decode, in all three cases having printed nothing;
    and otherwise, having printed the "No registry found" line, nil. *)
Theorem C10_no_match_leaves_cluster_untouched order sched w :
  (∀ items,
     SecretsList (cluster w) "default" AdminRegistryLabels = inr items →
     Forall (λ item, matchesFlags item = false) items) →
  ∃ w' r,
    RunE order sched w = Some (w', r)
    ∧ cluster w' = cluster w
    ∧ updates (since w w') = [] ∧ deletions (since w w') = []
    ∧ (NewKubeClient = None →
       ∀ items,
         SecretsList (cluster w) "default" AdminRegistryLabels = inr items →
         Forall (λ item, decodes item = true) items →
         r = None
         ∧ printed (since w w') = [Registry.msgNoRegistry username server])
    ∧ (∀ err, NewKubeClient = Some err →
         r = Some err ∧ since w w' = [])
    ∧ (NewKubeClient = None →
       ∀ err,
         SecretsList (cluster w) "default" AdminRegistryLabels = inl err →
         r = Some ("failed to list secret: " +:+ Error err)
         ∧ printed (since w w') = [])
    ∧ (NewKubeClient = None →
       ∀ pre bad post err,
         SecretsList (cluster w) "default" AdminRegistryLabels
         = inr (pre ++ bad :: post) →
         Forall (λ item, decodes item = true) pre →
         Unmarshal (default [] (Secret_Data bad !! DockerJSONName)) = inl err →
         r = Some ("failed unmarshal secret data '.dockerconfigjson': " +:+ err)
         ∧ printed (since w w') = []).
Proof.
  intros Hno. unfold Registry.RunE, Registry.RunE_setup.
  destruct NewKubeClient as [err |].
  { eexists _, _. split; [done |]. unfold since. rewrite drop_all.
    split; [done |]. split; [done |]. split; [done |].
    split; [done |]. split; [by intros ? [= ->] |]. split; done. }
  destruct (SecretsList _ _ _) as [err | items] eqn:Hlist.
  { eexists _, _. split; [done |]. since_events.
    split; [done |]. split; [done |]. split; [done |].
    split; [done |]. split; [done |]. split; [by intros _ ? [= ->] | done]. }
  specialize (Hno items eq_refl).
  destruct (filterSecrets items) as [err | [m h]] eqn:Hfilter.
  { eexists _, _. split; [done |]. since_events.
    split; [done |]. split; [done |]. split; [done |].
    split; [| split; [done |]; split; [done |]].
    - intros _ ? [= <-] Hdec. exfalso.
      destruct (rangeItems_decodes secretVar items ∅ ∅ Hdec) as (m & h & Hrun).
      unfold Registry.filterSecrets in Hfilter. congruence.
    - intros _ pre bad post err' [= ->] Hpre Hbad.
      unfold Registry.filterSecrets in Hfilter.
      rewrite (rangeItems_first_error _ _ _ _ _ _ _ Hpre Hbad) in Hfilter.
      by injection Hfilter as <-. }
  assert (Hdec : Forall (λ item, decodes item = true) items).
  { clear -Hfilter. unfold Registry.filterSecrets in Hfilter.
    revert Hfilter. generalize (∅ : gmap string positive) (∅ : gmap positive Secret).
    induction items as [| item items IH]; intros m0 h0 Hrun; [done |].
    rewrite rangeItems_cons in Hrun. destruct (decodes item) eqn:Hd.
    - constructor; [done |]. by eapply IH.
    - unfold Registry.decodes in Hd. by destruct (Unmarshal _). }
  apply rangeItems_no_match in Hfilter as ->; [| done].
  rewrite bool_decide_eq_true_2 by apply map_size_empty.
  eexists _, _. split; [done |]. since_events.
  split; [done |]. split; [done |]. split; [done |]. split; [done |].
  split; [done |]. split; [done |].
  intros _ pre bad post err [= ->] Hpre Hbad. exfalso.
  apply Forall_app in Hdec as [_ Hbad']. apply Forall_cons in Hbad' as [Hbad' _].
  unfold Registry.decodes in Hbad'. by rewrite Hbad in Hbad'.
Qed.

End CommandFacts.

(** ** The shared loop variable *)

(** X16. Every deletion the command requests is for the secret listed
    last, as many times as the map has entries: all entries of the map
    hold the address of the one loop variable. *)
Lemma RunE_deletes_last_listed {Cluster : Type} `{!KubeClient Cluster}
    (AdminRegistryLabels DockerJSONName : string)
    (Unmarshal : list Byte.byte → string + Registry)
    (username server : string) (NewKubeClient : option string)
    order sched (w w' : World (Cluster := Cluster)) r :
  RunE AdminRegistryLabels DockerJSONName Unmarshal username server NewKubeClient
    order sched w = Some (w', r) →
  deletions (since w w') ≠ [] →
  ∃ items m h item,
    SecretsList (cluster w) "default" AdminRegistryLabels = inr items
    ∧ filterSecrets DockerJSONName Unmarshal username server items = inr (m, h)
    ∧ last items = Some item
    ∧ (deletions (since w w')).*1
      = replicate (size m) (Secret_Namespace item, Secret_Name item).
Proof.
  intros Hrun Hdel.
  destruct (RunE_inv _ _ _ _ _ _ _ _ _ _ _ Hrun)
    as [(Hnone & _)
       | [(items & m & h & defaultSa & e & _ & _ & _ & Hsince)
         | (items & m & h & defaultSa & c & Hlist & Hfilter & _ & _
            & w1 & _ & Hsince1 & Hsince & _ & Hbulk)]].
  { done. }
  { by rewrite Hsince in Hdel. }
  destruct (filterSecrets_aliases _ _ _ _ _ _ _ Hfilter) as [Hm Hh].
  unfold bulkDelete in Hbulk. case_bool_decide as Horder; [| done].
  destruct (exec _ _ _ _) as [s |] eqn:Hexec; [| done]. simpl in Hbulk.
  destruct (d_returned s) eqn:Hret; [| done]. injection Hbulk as <- <-.
  destruct (deleteSecrets_requests _ _ _ _ _ _ Horder Hexec Hret) as (Hreq & _ & _).
  assert (Hlocs : order.*2 = replicate (size m) secretVar).
  { rewrite <- (length_map_to_list m), <- Horder, <- (length_fmap snd).
    symmetry. apply replicate_as_Forall_2; [done |]. apply Forall_forall.
    intros l ([k l'] & -> & Hin)%list_elem_of_fmap. simpl.
    rewrite Horder in Hin. apply elem_of_map_to_list in Hin. symmetry. eauto. }
  rewrite Hsince, Hsince1, deletions_app in *. simpl in *.
  destruct (last items) as [item |] eqn:Hlast.
  - exists items, m, h, item. repeat split; try done.
    symmetry. apply replicate_Permutation. rewrite Hreq, Hlocs.
    clear -Hh. induction (size m) as [| n IH]; [done |]. simpl.
    unfold target at 1. rewrite Hh. simpl. by rewrite IH.
  - exfalso. apply Hdel. apply (fmap_nil_inv fst).
    apply Permutation_nil_r. rewrite Hreq, Hlocs.
    clear -Hh. induction (size m) as [| n IH]; [done |]. simpl.
    unfold target at 1. by rewrite Hh.
Qed.

(** ** The command on the test double *)

Section Examples.

(** C1, at two stored credentials that both match. The map the command
    builds from the listing [secretA; secretB] has two entries holding one
    pointer, and behind it is [secretB]; whatever the order of the [range]
    and the schedule, the run requests the deletion of [secret-b] twice and
    that of [secret-a] never. *)
Theorem C1_aliased_entries_delete_last_secret_twice order sched w' r :
  removeAlice (fakeCluster [secretA; secretB]) order sched = Some (w', r) →
  filterSecrets ".dockerconfigjson" decoder "alice" "docker.io" [secretA; secretB]
    = inr (aliasedMap, aliasedHeap)
  ∧ (deletions (trace w')).*1
    = [("default", "secret-b"); ("default", "secret-b")].
Proof.
  intros Hrun. split; [vm_compute; reflexivity |].
  unfold removeAlice, RunE in Hrun.
  match type of Hrun with
  | context [RunE_setup ?a ?b ?c ?d ?e ?f ?g] =>
      set (st := RunE_setup a b c d e f g) in Hrun
  end.
  assert (Hst : st = (st.1, SetupDelete aliasedMap aliasedHeap))
    by (vm_compute; reflexivity).
  rewrite Hst in Hrun. cbv beta iota in Hrun.
  apply bulkDelete_requests in Hrun as [Htr Hreq].
  rewrite Htr, deletions_app.
  assert (deletions (trace st.1) = []) as -> by (vm_compute; reflexivity).
  rewrite app_nil_l. symmetry. apply (replicate_Permutation 2). rewrite Hreq.
  vm_compute. reflexivity.
Qed.

Lemma C1_aliased_entries_witness :
  ∃ w' r,
    removeAlice (fakeCluster [secretA; secretB])
      [("secret-a", secretVar); ("secret-b", secretVar)] interleaved = Some (w', r)
    ∧ (deletions (trace w')).*1
      = [("default", "secret-b"); ("default", "secret-b")].
Proof.
  destruct (removeAlice _ _ _) as [[w' r] |] eqn:Hrun;
    [| vm_compute in Hrun; discriminate].
  exists w', r. split; [reflexivity |].
  exact (proj2 (C1_aliased_entries_delete_last_secret_twice _ _ _ _ Hrun)).
Defined.

Lemma twoEntries_order :
  [("secret-a", 1%positive); ("secret-b", 2%positive)] ≡ₚ map_to_list twoEntries.
Proof. vm_compute. reflexivity. Qed.

(** C2 at two entries whose secrets are both gone from the cluster, the
    two goroutines interleaved. *)
Lemma C2_not_found_witness :
  ∃ s,
    exec twoHeap (size twoEntries) interleaved
      (deleteSecrets_init (fakeWorld (fakeCluster [])) []
         [("secret-a", 1%positive); ("secret-b", 2%positive)])
    = Some s
    ∧ d_errCh s = []
    ∧ bulkDelete twoEntries twoHeap
        [("secret-a", 1%positive); ("secret-b", 2%positive)] interleaved
        (fakeWorld (fakeCluster []))
      = Some (d_world s, None).
Proof.
  destruct (exec _ _ _ _) as [s |] eqn:Hexec; [| vm_compute in Hexec; discriminate].
  exists s. split; [reflexivity |].
  destruct (C2_not_found_is_no_error _ _ _ _ _ _ twoEntries_order Hexec)
    as [Hnil _].
  destruct Hnil as [Hch Hres].
  - vm_compute in Hexec. injection Hexec as <-. vm_compute. repeat constructor.
  - split; [exact Hch |]. apply Hres.
    vm_compute in Hexec. injection Hexec as <-. reflexivity.
Defined.

(** C3 at two entries whose deletions the API server both refuses: two
    errors are sent, the receive takes the one sent first, and the bulk
    delete returns the error of one failed request. *)
Lemma C3_one_failure_witness :
  ∃ s,
    exec twoHeap (size twoEntries) interleaved
      (deleteSecrets_init (fakeWorld forbidAllCluster) []
         [("secret-a", 1%positive); ("secret-b", 2%positive)])
    = Some s
    ∧ length (d_errCh s) = 2
    ∧ selectErr (d_errCh s)
      = Some "failed to delete secret 'default/secret-a': secrets is forbidden"
    ∧ ∃ ns name e,
        bulkDelete twoEntries twoHeap
          [("secret-a", 1%positive); ("secret-b", 2%positive)] interleaved
          (fakeWorld forbidAllCluster)
        = Some (d_world s,
                Some ("failed to delete secrets: "
                        +:+ ("failed to delete secret '" +:+ ns +:+ "/" +:+ name
                               +:+ "': " +:+ Error e))).
Proof.
  destruct (exec _ _ _ _) as [s |] eqn:Hexec; [| vm_compute in Hexec; discriminate].
  exists s. split; [reflexivity |].
  destruct (C3_one_failure_is_returned _ _ _ _ _ _ twoEntries_order Hexec)
    as (_ & _ & Hres & _).
  destruct Hres as (ns & name & e & Hin & He & Hbulk).
  - vm_compute in Hexec. injection Hexec as <-. reflexivity.
  - vm_compute in Hexec. injection Hexec as <-. vm_compute. by left.
  - split; [| split; [| by exists ns, name, e]];
      vm_compute in Hexec; injection Hexec as <-; reflexivity.
Defined.

(** C9 on a cluster with three stored credentials, two of them matching:
    the ServiceAccount sent keeps [secret-c] and [other], in that order;
    and on a cluster whose ServiceAccount has the matched secret as its
    only image pull secret: the update is sent all the same, with an empty
    list. *)
Lemma C9_pruned_first_witness :
  (∃ w' r,
     removeAlice (fakeCluster [secretA; secretC; secretB])
       [("secret-a", secretVar); ("secret-b", secretVar)] interleaved = Some (w', r)
     ∧ (λ u, ServiceAccount_ImagePullSecrets u.1.2) <$> updates (trace w')
       = [[ {| LocalObjectReference_Name := "secret-c" |};
            {| LocalObjectReference_Name := "other" |} ]]
     ∧ ∀ pre ns n o post,
         trace w' = pre ++ EvDelete ns n o :: post →
         ∃ sa, EvUpdate "default" sa None ∈ pre)
  ∧ ∃ w' r rest,
      removeAlice soleCluster [("secret-a", secretVar)] single = Some (w', r)
      ∧ ServiceAccount_ImagePullSecrets (desiredSa oneEntry soleSA) = []
      ∧ since (fakeWorld soleCluster) w'
        = setupEvents "managed-by=kn-admin-registry" (desiredSa oneEntry soleSA) None
            ++ rest.
Proof.
  split.
  - destruct (removeAlice _ _ _) as [[w' r] |] eqn:Hrun;
      [| vm_compute in Hrun; discriminate].
    exists w', r. split; [reflexivity |]. split.
    + vm_compute in Hrun. injection Hrun as <- <-. vm_compute. reflexivity.
    + exact (proj2 (proj2 (proj2 (C9_image_pull_secrets_pruned_first
                                    _ _ _ _ _ _ _ _ _) _ _ Hrun))).
  - destruct (removeAlice _ _ _) as [[w' r] |] eqn:Hrun;
      [| vm_compute in Hrun; discriminate].
    destruct (proj1 (proj2 (C9_image_pull_secrets_pruned_first
                              _ _ _ _ _ _ _ _ _) _ _ Hrun)
                [secretA] oneEntry oneHeap soleSA)
      as (rest & Hsince & _).
    + reflexivity.
    + reflexivity.
    + vm_compute. reflexivity.
    + intros Hempty. apply (f_equal (λ m : gmap string positive, m !! "secret-a")) in Hempty.
      vm_compute in Hempty. discriminate.
    + reflexivity.
    + exists w', r, rest. split; [reflexivity |]. split; [vm_compute; reflexivity |].
      exact Hsince.
Defined.

(** C10 on a cluster whose only stored credential is for another registry. *)
Lemma C10_no_match_witness :
  ∃ w',
    removeAlice (fakeCluster [secretC]) [] [] = Some (w', None)
    ∧ cluster w' = fakeCluster [secretC]
    ∧ printed (trace w')
      = ["No registry found for server: 'docker.io' and username: 'alice'" +:+ LF].
Proof.
  destruct (C10_no_match_leaves_cluster_untouched
              "managed-by=kn-admin-registry" ".dockerconfigjson" decoder
              "alice" "docker.io" None [] [] (fakeWorld (fakeCluster [secretC])))
    as (w' & r & Hrun & Hcluster & _ & _ & Hprint & _).
  - intros items [= <-]. vm_compute. repeat constructor.
  - destruct (Hprint eq_refl [secretC] eq_refl) as [-> Hlines].
    + vm_compute. repeat constructor.
    + exists w'. split; [exact Hrun |]. split; [exact Hcluster | exact Hlines].
Defined.

(** C10 as stated fails: a stored credential without a decodable payload
    matches nothing, yet the command prints nothing and returns an error. *)
Lemma C10_counterexample_undecodable_secret :
  Forall (λ item,
            matchesFlags ".dockerconfigjson" decoder "alice" "docker.io" item = false)
    [secretBroken]
  ∧ removeAlice (fakeCluster [secretBroken]) [] []
    = Some ({| cluster := fakeCluster [secretBroken];
               trace := [EvList "default" "managed-by=kn-admin-registry" false] |},
            Some "failed unmarshal secret data '.dockerconfigjson': unexpected end of JSON input").
Proof.
  split; [vm_compute; repeat constructor | vm_compute; reflexivity].
Qed.

End Examples.

(** ** The downloader *)

Section DownloaderFacts.
Variable ProfileEndpoints : list string.
Variable ProfileTypeUnknown : Z.
Variable success : Z → bool.
Variable localPort : Z.

Import Profiling.

Local Abbreviation endpoint := (Profiling.endpoint ProfileEndpoints ProfileTypeUnknown).
Local Abbreviation start :=
  (Profiling.start ProfileEndpoints ProfileTypeUnknown localPort).
Local Abbreviation step := (Profiling.step success localPort).
Local Abbreviation run := (Profiling.run success localPort).
Local Abbreviation Download :=
  (Profiling.Download ProfileEndpoints ProfileTypeUnknown success localPort).

Lemma run_app st inputs1 inputs2 :
  run st (inputs1 ++ inputs2)
  = let '(st1, out1) := run st inputs1 in
    let '(st2, out2) := run st1 inputs2 in
    (st2, out1 ++ out2).
Proof.
  revert st. induction inputs1 as [| i inputs1 IH]; intros st; simpl.
  - by destruct (run st inputs2).
  - destruct (step st i) as [st1 out1]. rewrite IH.
    destruct (run st1 inputs1) as [st2 out2].
    destruct (run st2 inputs2) as [st3 out3]. by rewrite (assoc_L (++)).
Qed.

Lemma run_cons st i inputs :
  run st (i :: inputs)
  = let '(st1, out1) := step st i in
    let '(st2, out2) := run st1 inputs in
    (st2, out1 ++ out2).
Proof. done. Qed.

(** Once [Download] has returned nothing more happens. *)
Lemma run_Done r inputs : run (Done r) inputs = (Done r, []).
Proof. induction inputs as [| i inputs IH]; simpl; [done |]. by rewrite IH. Qed.

(** The closed set of kinds, in terms of the table. *)
Lemma endpoint_None kind :
  endpoint kind = None ↔
  kind = ProfileTypeUnknown ∨ (kind < 0)%Z
  ∨ (Z.of_nat (length ProfileEndpoints) ≤ kind)%Z.
Proof.
  unfold Profiling.endpoint. repeat case_bool_decide.
  - naive_solver.
  - naive_solver.
  - rewrite lookup_ge_None. split; [intros; right; right; lia |].
    intros [? | [? | ?]]; [done | lia | lia].
Qed.

(** While waiting, inputs other than the two gates change nothing. *)
Lemma run_waiting_stop path pre post :
  ReadyFires ∉ pre →
  run (WaitingForReady path) (pre ++ StopFires :: post) = (Done (Some Aborted), []).
Proof.
  induction pre as [| i pre IH]; intros Hready; simpl.
  - by rewrite run_Done.
  - apply not_elem_of_cons in Hready as [Hi Hpre].
    destruct i; try done; simpl; rewrite ?run_Done, ?IH; done.
Qed.

(** C5. A kind outside the closed set (the sentinel, a negative value, a
    value at or past the size of the table) makes [Download] return the
    unsupported-kind error at once: whatever the states of the two gates,
    also when neither has fired and nothing ever arrives, and without any
    request or write. *)
Theorem C5_unsupported_kind_fails_at_once kind ready stop inputs :
  kind = ProfileTypeUnknown ∨ (kind < 0)%Z
    ∨ (Z.of_nat (length ProfileEndpoints) ≤ kind)%Z →
  Download kind ready stop inputs = (Done (Some UnsupportedKind), [])
  ∧ Download kind Pending Pending [] = (Done (Some UnsupportedKind), [])
  ∧ Contains (errorMessage UnsupportedKind) "unsupported profiling type".
Proof.
  intros Hkind%endpoint_None. unfold Profiling.Download, Profiling.start.
  rewrite Hkind, run_Done. simpl. repeat split. apply Contains_refl.
Qed.

(** C4. For a kind of the closed set, when the stop gate is already
    signaled at the call, or both gates are pending and the stop gate fires
    with no firing of the ready gate before it, [Download] returns the
    aborted error, whose text contains "download failed", having sent no
    request and written nothing. *)
Theorem C4_stop_before_ready_aborts kind path ready stop inputs :
  endpoint kind = Some path →
  stop = Signaled
  ∨ (ready = Pending ∧ stop = Pending
     ∧ ∃ pre post, inputs = pre ++ StopFires :: post ∧ ReadyFires ∉ pre) →
  Download kind ready stop inputs = (Done (Some Aborted), [])
  ∧ Contains (errorMessage Aborted) "download failed".
Proof.
  intros Hkind Hstop. split; [| apply Contains_refl].
  unfold Profiling.Download, Profiling.start. rewrite Hkind.
  destruct Hstop as [-> | (-> & -> & pre & post & -> & Hpre)].
  - by rewrite run_Done.
  - by rewrite run_waiting_stop.
Qed.


(** The body of an accepted response goes to the sink chunk by chunk. *)
Lemma run_chunks_success status body chunks rest :
  success status = true →
  run (Fetching (Some status) body) ((ChunkArrives <$> chunks) ++ rest)
  = let '(st, out) := run (Fetching (Some status) body) rest in
    (st, (WriteSink <$> chunks) ++ out).
Proof.
  intros Hok. induction chunks as [| c chunks IH].
  - simpl. by destruct (run _ rest).
  - rewrite !fmap_cons, <- !app_comm_cons, run_cons.
    unfold Profiling.step at 1. rewrite Hok, IH. by destruct (run _ rest).
Qed.

(** The body of a rejected response is kept for the error text. *)
Lemma run_chunks_failure status chunks rest : ∀ body,
  success status = false →
  run (Fetching (Some status) body) ((ChunkArrives <$> chunks) ++ rest)
  = run (Fetching (Some status) (body ++ concat chunks)) rest.
Proof.
  induction chunks as [| c chunks IH]; intros body Hko.
  - simpl. by rewrite app_nil_r.
  - rewrite !fmap_cons, <- !app_comm_cons, run_cons.
    unfold Profiling.step at 1. rewrite Hko, IH by done.
    rewrite <- (assoc_L (++)). by destruct (run _ rest).
Qed.

Lemma sink_writes chunks : sink (WriteSink <$> chunks) = concat chunks.
Proof.
  unfold sink. induction chunks as [| c chunks IH]; [done |].
  by rewrite fmap_cons, bind_cons, IH.
Qed.

Lemma requests_writes chunks : requests (WriteSink <$> chunks) = [].
Proof. unfold requests. by induction chunks. Qed.

(** The call and the firing of the ready gate, in either order. *)
Lemma Download_ready kind path ready inputs :
  endpoint kind = Some path →
  Download kind ready Pending (readyInputs ready ++ inputs)
  = let '(st, out) := run (Fetching None []) inputs in
    (st, SendGET localPort path :: out).
Proof.
  intros Hkind. unfold Profiling.Download, Profiling.start. rewrite Hkind.
  destruct ready; simpl; by destruct (run _ inputs).
Qed.

(** C6. With the stop gate never firing, the ready gate fired (before or
    after the call) and a server that answers 200 and streams
    "some-binary-data" in any number of chunks, [Download] of the heap kind
    sends one GET, for "/debug/pprof/heap" on the configured port, writes
    exactly those bytes to the sink and returns no error; as long as the
    end of the body has not arrived it has not returned. *)
Theorem C6_heap_profile_is_copied heapKind ready chunks :
  endpoint heapKind = Some "/debug/pprof/heap" →
  success 200 = true →
  concat chunks = String.list_byte_of_string "some-binary-data" →
  (∃ out,
     Download heapKind ready Pending (readyInputs ready ++ response 200 chunks)
     = (Done None, out)
     ∧ requests out = [(localPort, "/debug/pprof/heap")]
     ∧ sink out = String.list_byte_of_string "some-binary-data")
  ∧ ∀ k,
      (Download heapKind ready Pending
         (readyInputs ready ++ ResponseArrives 200 :: (ChunkArrives <$> take k chunks))).1
      = Fetching (Some 200%Z) [].
Proof.
  intros Hkind Hok Hdata. split.
  - eexists. rewrite (Download_ready _ _ _ _ Hkind). unfold response. simpl.
    rewrite (run_chunks_success _ _ _ _ Hok). simpl. rewrite Hok.
    split; [reflexivity |]. rewrite app_nil_r. split.
    + simpl. by rewrite requests_writes.
    + change (sink (SendGET localPort "/debug/pprof/heap" :: (WriteSink <$> chunks)))
        with (sink (WriteSink <$> chunks)).
      by rewrite sink_writes.
  - intros k. rewrite (Download_ready _ _ _ _ Hkind). simpl.
    rewrite <- (app_nil_r (ChunkArrives <$> take k chunks)).
    by rewrite (run_chunks_success _ _ _ _ Hok).
Qed.

(** C7. When the server answers with a status that is not a success,
    [Download] returns the remote error made of the text of the body and
    the status, "download error: <body>, code <status>", and writes nothing
    to the sink; for 404 and the body "not found" the text is
    "download error: not found, code 404". *)
Theorem C7_rejected_response_is_reported kind path ready status chunks :
  endpoint kind = Some path →
  success status = false →
  let body := String.string_of_list_byte (concat chunks) in
  Download kind ready Pending (readyInputs ready ++ response status chunks)
  = (Done (Some (RemoteError status body)), [SendGET localPort path])
  ∧ errorMessage (RemoteError status body)
    = "download error: " +:+ body +:+ ", code " +:+ decimal status
  ∧ (status = 404%Z → concat chunks = String.list_byte_of_string "not found" →
     Contains (errorMessage (RemoteError status body))
       "download error: not found, code 404").
Proof.
  intros Hkind Hko body. split; [| split; [done |]].
  - rewrite (Download_ready _ _ _ _ Hkind). unfold response. simpl.
    rewrite (run_chunks_failure _ _ _ _ Hko). simpl. by rewrite Hko.
  - intros -> Hdata. subst body. rewrite Hdata.
    rewrite String.string_of_list_byte_of_string. apply Contains_refl.
Qed.

(** Cancellation while the body is streaming: the request in flight is
    terminated and the call returns the canceled error at once, whatever
    has been written to the sink and whatever would still arrive. *)
Lemma stop_mid_stream_cancels kind path ready status chunks rest :
  endpoint kind = Some path →
  success status = true →
  Download kind ready Pending
    (readyInputs ready
       ++ ResponseArrives status :: (ChunkArrives <$> chunks) ++ StopFires :: rest)
  = (Done (Some Canceled),
     SendGET localPort path :: (WriteSink <$> chunks) ++ [AbortRequest])
  ∧ Contains (errorMessage Canceled) "context canceled".
Proof.
  intros Hkind Hok. split; [| apply Contains_refl].
  rewrite (Download_ready _ _ _ _ Hkind). simpl.
  rewrite (run_chunks_success _ _ _ _ Hok). simpl. by rewrite run_Done.
Qed.

End DownloaderFacts.

(** C5 on the sample table: the sentinel and the first value past the
    table. *)
Lemma C5_unsupported_kind_witness :
  Profiling.Download Profiling.sampleEndpoints 0 Profiling.sampleSuccess 8080
    0 Profiling.Pending Profiling.Pending []
  = (Profiling.Done (Some Profiling.UnsupportedKind), [])
  ∧ Profiling.Download Profiling.sampleEndpoints 0 Profiling.sampleSuccess 8080
      2 Profiling.Signaled Profiling.Pending []
    = (Profiling.Done (Some Profiling.UnsupportedKind), []).
Proof.
  split.
  - refine (proj1 (C5_unsupported_kind_fails_at_once Profiling.sampleEndpoints 0
                     Profiling.sampleSuccess 8080 0 Profiling.Pending
                     Profiling.Pending [] _)).
    left. reflexivity.
  - refine (proj1 (C5_unsupported_kind_fails_at_once Profiling.sampleEndpoints 0
                     Profiling.sampleSuccess 8080 2 Profiling.Signaled
                     Profiling.Pending [] _)).
    right. right. simpl. lia.
Defined.

(** C4 on the scenario of the test: the call, then [close(d.stopCh)]. *)
Lemma C4_stop_before_ready_witness :
  Profiling.Download Profiling.sampleEndpoints 0 Profiling.sampleSuccess 8080
    1 Profiling.Pending Profiling.Pending [Profiling.StopFires]
  = (Profiling.Done (Some Profiling.Aborted), []).
Proof.
  refine (proj1 (C4_stop_before_ready_aborts Profiling.sampleEndpoints 0
                   Profiling.sampleSuccess 8080 1 "/debug/pprof/heap"
                   Profiling.Pending Profiling.Pending [Profiling.StopFires] _ _)).
  - reflexivity.
  - right. split; [done |]. split; [done |]. exists [], []. split; [done |].
    apply not_elem_of_nil.
Defined.

(** C6 on the scenario of the test, the body arriving in two chunks. *)
Lemma C6_heap_profile_witness :
  ∃ out,
    Profiling.Download Profiling.sampleEndpoints 0 Profiling.sampleSuccess 8080
      1 Profiling.Pending Profiling.Pending
      (Profiling.ReadyFires
         :: Profiling.response 200
              [String.list_byte_of_string "some-bin";
               String.list_byte_of_string "ary-data"])
    = (Profiling.Done None, out)
    ∧ Profiling.requests out = [(8080%Z, "/debug/pprof/heap")]
    ∧ Profiling.sink out = String.list_byte_of_string "some-binary-data".
Proof.
  refine (proj1 (C6_heap_profile_is_copied Profiling.sampleEndpoints 0
                   Profiling.sampleSuccess 8080 1 Profiling.Pending
                   [String.list_byte_of_string "some-bin";
                    String.list_byte_of_string "ary-data"] _ _ _)); reflexivity.
Defined.

(** C7 on the scenario of the test. *)
Lemma C7_rejected_response_witness :
  Profiling.Download Profiling.sampleEndpoints 0 Profiling.sampleSuccess 8080
    1 Profiling.Pending Profiling.Pending
    (Profiling.ReadyFires
       :: Profiling.response 404 [String.list_byte_of_string "not found"])
  = (Profiling.Done (Some (Profiling.RemoteError 404 "not found")),
     [Profiling.SendGET 8080 "/debug/pprof/heap"])
  ∧ Profiling.errorMessage (Profiling.RemoteError 404 "not found")
    = "download error: not found, code 404".
Proof.
  destruct (C7_rejected_response_is_reported Profiling.sampleEndpoints 0
              Profiling.sampleSuccess 8080 1 "/debug/pprof/heap" Profiling.Pending
              404 [String.list_byte_of_string "not found"])
    as (Hrun & Hmsg & _); [reflexivity | reflexivity |].
  split; [exact Hrun | reflexivity].
Defined.

(** ** Further properties of the registry command *)

(** X1. [PreRunE] lets the command run exactly when both flags are
    non-empty; an empty [--username] is reported first, whatever
    [--server] is. *)
Theorem PreRunE_accepts_iff (username server : string) :
  (PreRunE username server = None ↔ username ≠ EmptyString ∧ server ≠ EmptyString)
  ∧ (username = EmptyString →
     PreRunE username server
     = Some "'registry remove' requires the registry username provided with the --username option")
  ∧ (username ≠ EmptyString → server = EmptyString →
     PreRunE username server
     = Some "'registry remove' requires the registry server url provided with the --server option").
Proof.
  unfold PreRunE. destruct (decide (username = EmptyString)) as [-> | Hu].
  { rewrite bool_decide_eq_true_2 by done.
    split; [split; [done | by intros [? _]] | split; done]. }
  rewrite (bool_decide_eq_false_2 _ Hu).
  destruct (decide (server = EmptyString)) as [-> | Hs].
  - rewrite bool_decide_eq_true_2 by done.
    split; [split; [done | by intros [_ ?]] | split; done].
  - rewrite (bool_decide_eq_false_2 _ Hs). split; [split; done | split; done].
Qed.

Section FilterFacts.
Variables (DockerJSONName : string).
Variable Unmarshal : list Byte.byte → string + Registry.
Variables (username server : string).

Local Abbreviation rangeAuths := (Registry.rangeAuths username server).
Local Abbreviation rangeItems :=
  (Registry.rangeItems DockerJSONName Unmarshal username server).
Local Abbreviation filterSecrets :=
  (Registry.filterSecrets DockerJSONName Unmarshal username server).
Local Abbreviation matchesFlags :=
  (Registry.matchesFlags DockerJSONName Unmarshal username server).
Local Abbreviation decodes := (Registry.decodes DockerJSONName Unmarshal).

(** X2. The order in which the [range] over [registry.Auths] visits the
    entries does not matter: two orders of the same entries leave the same
    map, which is the given one with at most the key of the secret
    added. *)
Theorem rangeAuths_order_irrelevant key l
    (auths auths' : list (string * Auth)) (secretsMap : gmap string positive) :
  auths ≡ₚ auths' →
  rangeAuths key l auths secretsMap = rangeAuths key l auths' secretsMap
  ∧ (rangeAuths key l auths secretsMap = secretsMap
     ∨ rangeAuths key l auths secretsMap = <[key := l]> secretsMap).
Proof.
  intros Hperm. rewrite !rangeAuths_list. split.
  - match goal with |- (if ?b then _ else _) = (if ?c then _ else _) =>
      assert (b = c) as ->; [| done] end.
    apply eq_true_iff_eq. rewrite !existsb_exists.
    split; intros (x & Hin & Hx); exists x; split; try done;
      apply list_elem_of_In; apply list_elem_of_In in Hin.
    + by rewrite <- Hperm.
    + by rewrite Hperm.
  - destruct (existsb _ auths); eauto.
Qed.

Lemma rangeItems_inr_decodes l items :
  ∀ (secretsMap : gmap string positive) (heap : gmap positive Secret) m h,
  rangeItems l items secretsMap heap = inr (m, h) →
  Forall (λ item, decodes item = true) items.
Proof.
  induction items as [| item items IH]; intros m0 h0 m h Hrun; [done |].
  rewrite rangeItems_cons in Hrun. destruct (decodes item) eqn:Hd.
  - constructor; [done |]. by eapply IH.
  - unfold Registry.decodes in Hd. by destruct (Unmarshal _).
Qed.

(** X3. When the filter loop ends without an error, every listed secret
    has decoded, and the keys of the map are exactly the names of the
    listed secrets holding credentials of [username] for [server]. *)
Theorem filterSecrets_keys (items : list Secret) m h :
  filterSecrets items = inr (m, h) →
  Forall (λ item, decodes item = true) items
  ∧ ∀ k, k ∈ dom m ↔
         ∃ item, item ∈ items ∧ matchesFlags item = true ∧ Secret_Name item = k.
Proof.
  intros Hrun. split.
  - by eapply rangeItems_inr_decodes.
  - by eapply filterSecrets_dom.
Qed.

(** X4. The loop stops at the first listed secret whose docker config does
    not decode: the command's error is the decoder's error for that
    secret behind the fixed prefix, whatever the later secrets are and
    whether or not an earlier one matched. *)
Theorem filterSecrets_first_error (pre post : list Secret) bad err :
  Forall (λ item, decodes item = true) pre →
  Unmarshal (default [] (Secret_Data bad !! DockerJSONName)) = inl err →
  filterSecrets (pre ++ bad :: post)
  = inl ("failed unmarshal secret data '.dockerconfigjson': " +:+ err).
Proof.
  intros Hpre Hbad. unfold Registry.filterSecrets.
  generalize (∅ : gmap string positive) (∅ : gmap positive Secret).
  induction Hpre as [| item pre Hitem _ IH]; intros m0 h0.
  - simpl. by rewrite Hbad.
  - change ((item :: pre) ++ bad :: post) with (item :: (pre ++ bad :: post)).
    rewrite rangeItems_cons, Hitem. apply IH.
Qed.

(** X5. Every entry of the map built by the filter loop holds the same
    pointer, and what it points to when the loop is over is the secret
    listed last, so no entry dangles. *)
Theorem filterSecrets_entries_share_pointer (items : list Secret) m h k l :
  filterSecrets items = inr (m, h) →
  m !! k = Some l →
  l = secretVar ∧ ∃ item, last items = Some item ∧ h !! l = Some item.
Proof.
  intros Hrun Hk.
  destruct (filterSecrets_aliases _ _ _ _ _ _ _ Hrun) as [Hm Hh].
  rewrite (Hm _ _ Hk). split; [done |].
  assert (Hdom : k ∈ dom m) by (apply elem_of_dom; eauto).
  apply (filterSecrets_dom _ _ _ _ _ _ _ Hrun) in Hdom as (item & Hin & _).
  destruct (last items) as [item' |] eqn:Hlast; [by eexists |].
  apply last_None in Hlast. subst items. by apply elem_of_nil in Hin.
Qed.

End FilterFacts.

(** X6. Pruning with no matched secret keeps the list as it is; pruning
    twice is pruning once; what is kept is a sublist of the original none
    of whose names is a key of the map. *)
Theorem pruneImagePullSecrets_laws (secretsMap : gmap string positive)
    (ips : list LocalObjectReference) :
  pruneImagePullSecrets ∅ ips = ips
  ∧ pruneImagePullSecrets secretsMap (pruneImagePullSecrets secretsMap ips)
    = pruneImagePullSecrets secretsMap ips
  ∧ pruneImagePullSecrets secretsMap ips `sublist_of` ips
  ∧ Forall (λ ref, secretsMap !! LocalObjectReference_Name ref = None)
      (pruneImagePullSecrets secretsMap ips).
Proof.
  rewrite !pruneImagePullSecrets_filter. split; [| split; [| split]].
  - induction ips as [| ref ips IH]; [done |].
    rewrite filter_cons_True by (rewrite dom_empty_L; apply not_elem_of_empty).
    by rewrite IH.
  - induction ips as [| ref ips IH]; [done |]. rewrite filter_cons.
    case_decide; [| done]. rewrite filter_cons_True by done. by rewrite IH.
  - apply sublist_filter.
  - apply Forall_forall. intros ref [Href _]%list_elem_of_filter.
    by apply not_elem_of_dom.
Qed.

Section Outputs.
Context {Cluster : Type} `{!KubeClient Cluster}.
Implicit Types (heap : gmap positive Secret) (s : dstate (Cluster := Cluster))
  (w : World (Cluster := Cluster)) (secretsMap : gmap string positive).

Lemma printed_snoc (tr : list event) e :
  printed (tr ++ [e]) = printed tr ++ printed [e].
Proof. apply omap_app. Qed.

Lemma reported_done heap l r sec :
  heap !! l = Some sec →
  reported heap {| g_secret := l; g_pc := PcDone r |}
  = outcomeLine (Secret_Namespace sec, Secret_Name sec, r).
Proof. unfold reported. simpl. by intros ->. Qed.

(** The lines printed so far are those of the goroutines that have
    reported. *)
Lemma step_printed heap cap (tr0 : list event) a s s' :
  step heap cap a s = Some s' →
  printed (trace (d_world s)) ≡ₚ printed tr0 ++ (d_gs s ≫= reported heap) →
  printed (trace (d_world s')) ≡ₚ printed tr0 ++ (d_gs s' ≫= reported heap).
Proof.
  intros Hstep Hp. unfold step in Hstep. destruct (d_returned s); [done |].
  destruct a as [| i |].
  - destruct (d_range s) as [| l rest]; [done |]. injection Hstep as <-. simpl.
    by rewrite bind_app, app_nil_r.
  - destruct (d_gs s !! i) as [g |] eqn:Hi; [| done]. simpl in Hstep.
    unfold stepGoroutine in Hstep. destruct g as [l p]. simpl in *.
    destruct p as [| r | r | r].
    + destruct (heap !! l) as [secret |] eqn:Hsecret; [| done]. simpl in Hstep.
      destruct (SecretsDelete _ _ _) as [c r]. injection Hstep as <-. simpl.
      rewrite printed_snoc, app_nil_r, Hp. by erewrite bind_insert_same.
    + destruct (heap !! l) as [secret |] eqn:Hsecret; [| done]. simpl in Hstep.
      destruct r as [e |]; [destruct (IsNotFound e) eqn:Hnf |].
      * injection Hstep as <-. simpl. rewrite printed_snoc, Hp.
        rewrite (bind_insert_add _ _ _ _ _ Hi); [| done].
        rewrite (reported_done _ _ _ _ Hsecret). simpl.
        by rewrite Hnf, (assoc_L (++)).
      * case_bool_decide; [| done]. injection Hstep as <-. simpl. rewrite Hp.
        rewrite (bind_insert_add _ _ _ _ _ Hi); [| done].
        rewrite (reported_done _ _ _ _ Hsecret). simpl.
        by rewrite Hnf, app_nil_r.
      * injection Hstep as <-. simpl. rewrite printed_snoc, Hp.
        rewrite (bind_insert_add _ _ _ _ _ Hi); [| done].
        rewrite (reported_done _ _ _ _ Hsecret). simpl.
        by rewrite (assoc_L (++)).
    + destruct (d_wg s) as [| n]; [done |]. injection Hstep as <-. simpl.
      rewrite Hp. by erewrite bind_insert_same.
    + done.
  - destruct (d_range s); [| done]. destruct (d_wg s); [| done].
    by injection Hstep as <-.
Qed.

Lemma exec_printed heap cap (tr0 : list event) sched : ∀ s s',
  exec heap cap sched s = Some s' →
  printed (trace (d_world s)) ≡ₚ printed tr0 ++ (d_gs s ≫= reported heap) →
  printed (trace (d_world s')) ≡ₚ printed tr0 ++ (d_gs s' ≫= reported heap).
Proof.
  induction sched as [| a sched IH]; intros s s' Hexec Hp; simpl in Hexec.
  - by injection Hexec as <-.
  - destruct (step heap cap a s) as [s1 |] eqn:Hstep; [| done].
    eapply IH; [done |]. by eapply step_printed.
Qed.

Lemma exited_goroutine_outputs heap g :
  exited g →
  reported heap g = called heap g ≫= outcomeLine
  ∧ sent heap g = called heap g ≫= outcomeError.
Proof.
  intros [r Hp]. destruct g as [l p]. simpl in Hp. subst p.
  unfold reported, sent, called. simpl.
  destruct (heap !! l) as [sec |]; [| by destruct r].
  rewrite !bind_cons, !app_nil_r. simpl. destruct r as [e |]; [| done].
  unfold errDelete. by destruct (IsNotFound e).
Qed.

Lemma exited_outputs heap gs :
  Forall exited gs →
  gs ≫= reported heap = (gs ≫= called heap) ≫= outcomeLine
  ∧ gs ≫= sent heap = (gs ≫= called heap) ≫= outcomeError.
Proof.
  induction 1 as [| g gs Hg _ [IH1 IH2]]; [done |].
  destruct (exited_goroutine_outputs heap g Hg) as [H1 H2].
  by rewrite !bind_cons, !bind_app, <- IH1, <- IH2, H1, H2.
Qed.

Lemma exited_no_steps_left (gs : list goroutine) :
  Forall exited gs → sum_list_with remaining gs = 0.
Proof.
  induction 1 as [| [l p] gs [r Hp] _ IH]; [done |]. simpl in *. subst p.
  unfold remaining at 1. simpl. lia.
Qed.

Lemma target_total heap (ls : list positive) :
  Forall (λ l, is_Some (heap !! l)) ls →
  length (omap (target heap) ls) = length ls.
Proof.
  induction 1 as [| l ls [sec Hl] _ IH]; [done |]. simpl.
  unfold target at 1. rewrite Hl. simpl. f_equal. exact IH.
Qed.

Lemma bind_nil_Forall {A B} (f : A → list B) (l : list A) :
  l ≫= f = [] ↔ Forall (λ x, f x = []) l.
Proof.
  induction l as [| x l IH]; [done |]. rewrite bind_cons, Forall_cons, <- IH.
  split; [by intros [-> ->]%app_eq_nil | by intros [-> ->]].
Qed.

(** X10. While every entry of the map points into the store, a run of the
    bulk delete never gets stuck: whatever the scheduler has picked so
    far, the run can be continued to the return of [w.Wait()], and the
    bulk delete then hands its result to the caller. *)
Theorem bulkDelete_can_always_finish heap secretsMap order sched w s :
  order ≡ₚ map_to_list secretsMap →
  (∀ k l, secretsMap !! k = Some l → is_Some (heap !! l)) →
  exec heap (size secretsMap) sched (deleteSecrets_init w [] order) = Some s →
  ∃ sched' w' r,
    bulkDelete secretsMap heap order (sched ++ sched') w = Some (w', r).
Proof.
  intros Horder Hheap Hexec.
  destruct (deleteSecrets_returns _ _ _ _ _ _ Horder Hheap Hexec)
    as (sched' & s' & Hexec' & Hret).
  exists sched'. unfold bulkDelete. rewrite bool_decide_eq_true_2 by done.
  rewrite Hexec'. simpl. rewrite Hret. eauto.
Qed.

(** X11. [deleteSecrets] terminates under every scheduler: a run over a
    map of [n] entries consists of at most [4 * n + 1] picks (a [go]
    statement and three steps per goroutine, and the return), [w.Wait()]
    has returned exactly when all of them have been made, and, the entries
    pointing to secrets, a run that has not returned is never stuck: the
    scheduler has something to pick, and the run can be continued to the
    return, reached at pick [4 * n + 1]. *)
Theorem deleteSecrets_step_count heap secretsMap order sched w s :
  order ≡ₚ map_to_list secretsMap →
  exec heap (size secretsMap) sched (deleteSecrets_init w [] order) = Some s →
  length sched ≤ 4 * size secretsMap + 1
  ∧ (d_returned s = true ↔ length sched = 4 * size secretsMap + 1)
  ∧ ((∀ k l, secretsMap !! k = Some l → is_Some (heap !! l)) →
     (d_returned s = false →
      ∃ a s', step heap (size secretsMap) a s = Some s')
     ∧ ∃ sched' s',
         exec heap (size secretsMap) (sched ++ sched')
           (deleteSecrets_init w [] order) = Some s'
         ∧ d_returned s' = true
         ∧ length (sched ++ sched') = 4 * size secretsMap + 1).
Proof.
  intros Horder Hexec.
  assert (Hlen : length order = size secretsMap)
    by (by rewrite Horder, length_map_to_list).
  assert (Hcount : ∀ sched0 s0,
            exec heap (size secretsMap) sched0 (deleteSecrets_init w [] order)
            = Some s0 →
            length sched0 ≤ 4 * size secretsMap + 1
            ∧ (d_returned s0 = true ↔ length sched0 = 4 * size secretsMap + 1)).
  { intros sched0 s0 Hexec0.
    destruct (exec_inv heap (size secretsMap) order.*2 (trace w) sched0 [] _ s0
                (Inv_init heap (size secretsMap) w order ltac:(lia)) Hexec0)
      as (tr & Hinv & Hsteps).
    unfold stepsLeft at 1 in Hsteps. simpl in Hsteps.
    rewrite length_fmap, Hlen in Hsteps.
    assert (Hleft : d_returned s0 = true ↔ stepsLeft s0 = 0).
    { split.
      - intros Hret. destruct (Inv_returned _ _ _ _ _ _ Hinv Hret) as [Hexit _].
        destruct (inv_ret _ _ _ _ _ _ Hinv Hret) as [Hrange _].
        unfold stepsLeft. by rewrite Hret, Hrange, (exited_no_steps_left _ Hexit).
      - unfold stepsLeft. destruct (d_returned s0); [done | simpl; lia]. }
    split; [lia |]. rewrite Hleft. lia. }
  destruct (Hcount _ _ Hexec) as [Hle Hiff].
  split; [done |]. split; [done |]. intros Hheap.
  assert (Hlocs : ∀ l, l ∈ order.*2 → is_Some (heap !! l)).
  { intros l ([k l'] & -> & Hin)%list_elem_of_fmap. simpl.
    rewrite Horder in Hin. apply elem_of_map_to_list in Hin. eauto. }
  split.
  - intros Hret.
    exact (step_progress _ _ _ _ _ _
             (deleteSecrets_run _ _ _ _ _ _ Horder Hexec) Hlocs Hret).
  - destruct (deleteSecrets_returns _ _ _ _ _ _ Horder Hheap Hexec)
      as (sched' & s' & Hexec' & Hret').
    exists sched', s'. split; [done |]. split; [done |].
    by apply (Hcount _ _ Hexec').
Qed.

(** X12. A complete run of [deleteSecrets] has started one goroutine per
    entry of the map and each has run to its end; its requests are, up to
    their order, one [Delete] per entry for the namespace and name found
    behind the entry's pointer, and it has made no other request to the
    API server. When no pointer dangles there are as many deletions as
    entries. *)
Theorem deleteSecrets_one_request_per_entry heap secretsMap order sched w s :
  order ≡ₚ map_to_list secretsMap →
  exec heap (size secretsMap) sched (deleteSecrets_init w [] order) = Some s →
  d_returned s = true →
  (deletions (since w (d_world s))).*1
    ≡ₚ omap (target heap) (map_to_list secretsMap).*2
  ∧ length (d_gs s) = size secretsMap ∧ Forall exited (d_gs s)
  ∧ Forall deleteEvent (since w (d_world s))
  ∧ ((∀ k l, secretsMap !! k = Some l → is_Some (heap !! l)) →
     length (deletions (since w (d_world s))) = size secretsMap).
Proof.
  intros Horder Hexec Hret.
  destruct (deleteSecrets_requests _ _ _ _ _ _ Horder Hexec Hret)
    as (Hreq & Hexit & Hlen).
  pose proof (deleteSecrets_run _ _ _ _ _ _ Horder Hexec) as Hinv.
  rewrite Horder in Hreq.
  split; [done |]. split; [done |]. split; [done |].
  split; [apply (inv_events _ _ _ _ _ _ Hinv) |].
  intros Hheap. rewrite <- (length_fmap fst), Hreq, target_total.
  - by rewrite length_fmap, length_map_to_list.
  - apply Forall_forall. intros l ([k l'] & -> & Hin)%list_elem_of_fmap.
    apply elem_of_map_to_list in Hin. eauto.
Qed.

(** X13. A complete run of [deleteSecrets] accounts for every request once:
    the lines it has printed are, up to their order, the "deleted" line of
    each request that succeeded and the "not found, skipped" line of each
    request answered not-found, and [errCh] holds, up to their order, the
    error of each request that failed otherwise. *)
Theorem deleteSecrets_outcomes_shown heap secretsMap order sched w s :
  order ≡ₚ map_to_list secretsMap →
  exec heap (size secretsMap) sched (deleteSecrets_init w [] order) = Some s →
  d_returned s = true →
  printed (since w (d_world s)) ≡ₚ deletions (since w (d_world s)) ≫= outcomeLine
  ∧ d_errCh s ≡ₚ deletions (since w (d_world s)) ≫= outcomeError.
Proof.
  intros Horder Hexec Hret.
  pose proof (deleteSecrets_run _ _ _ _ _ _ Horder Hexec) as Hinv.
  destruct (Inv_returned _ _ _ _ _ _ Hinv Hret) as [Hexit _].
  destruct (exited_outputs heap _ Hexit) as [Hrep Hsent].
  split.
  - pose proof (exec_printed heap _ (trace w) _ _ _ Hexec) as Hp. simpl in Hp.
    rewrite app_nil_r in Hp. specialize (Hp ltac:(done)).
    rewrite (inv_trace _ _ _ _ _ _ Hinv) in Hp.
    unfold printed in Hp at 1. rewrite omap_app in Hp.
    apply Permutation_app_inv_l in Hp. fold (printed (since w (d_world s))) in Hp.
    by rewrite Hp, Hrep, (inv_calls _ _ _ _ _ _ Hinv).
  - by rewrite (inv_chan _ _ _ _ _ _ Hinv), Hsent, (inv_calls _ _ _ _ _ _ Hinv).
Qed.


(** X14. The bulk delete returns, and returns nil exactly when no request
    of the run failed with an error other than not-found: successes and
    not-found answers in any mix give nil, one hard failure among them
    gives an error. The entries pointing to secrets, every run that has
    started can be continued to such a return. *)
Theorem bulkDelete_nil_iff heap secretsMap order w :
  (∀ sched w' r,
     bulkDelete secretsMap heap order sched w = Some (w', r) →
     r = None ↔ Forall (λ d, hardFailure d.2 = false) (deletions (since w w')))
  ∧ (order ≡ₚ map_to_list secretsMap →
     (∀ k l, secretsMap !! k = Some l → is_Some (heap !! l)) →
     ∀ sched s,
       exec heap (size secretsMap) sched (deleteSecrets_init w [] order) = Some s →
       ∃ sched' w' r,
         bulkDelete secretsMap heap order (sched ++ sched') w = Some (w', r)
         ∧ (r = None ↔
            Forall (λ d, hardFailure d.2 = false) (deletions (since w w')))).
Proof.
  assert (Hiff : ∀ sched w' r,
            bulkDelete secretsMap heap order sched w = Some (w', r) →
            r = None ↔
            Forall (λ d, hardFailure d.2 = false) (deletions (since w w'))).
  { unfold bulkDelete. intros sched w' r Hrun.
    case_bool_decide as Horder; [| done].
    destruct (exec _ _ _ _) as [s |] eqn:Hexec; [| done]. simpl in Hrun.
    destruct (d_returned s) eqn:Hret; [| done]. injection Hrun as <- <-.
    pose proof (deleteSecrets_run _ _ _ _ _ _ Horder Hexec) as Hinv.
    destruct (Inv_returned _ _ _ _ _ _ Hinv Hret) as [Hexit _].
    destruct (exited_outputs heap _ Hexit) as [_ Hsent].
    pose proof (inv_chan _ _ _ _ _ _ Hinv) as Hchan.
    rewrite Hsent, <- (inv_calls _ _ _ _ _ _ Hinv) in Hchan.
    assert (Hnil : d_errCh s = [] ↔
              Forall (λ d, hardFailure d.2 = false)
                (deletions (since w (d_world s)))).
    { rewrite <- Permutation_nil_r, Hchan, Permutation_nil_r, bind_nil_Forall.
      apply Forall_proper; [| done]. intros [[ns n] [e |]]; simpl; [| done].
      destruct (IsNotFound e); simpl; split; done. }
    rewrite <- Hnil. unfold selectErr. by destruct (d_errCh s). }
  split; [exact Hiff |]. intros Horder Hheap sched s Hexec.
  destruct (deleteSecrets_returns _ _ _ _ _ _ Horder Hheap Hexec)
    as (sched' & s' & Hexec' & Hret).
  assert (Hrun : ∃ r, bulkDelete secretsMap heap order (sched ++ sched') w
                      = Some (d_world s', r)).
  { unfold bulkDelete. rewrite bool_decide_eq_true_2 by done.
    rewrite Hexec'. simpl. rewrite Hret. eauto. }
  destruct Hrun as [r Hrun]. exists sched', (d_world s'), r.
  split; [done | by eapply Hiff].
Qed.

End Outputs.

Ltac since_suffix :=
  match goal with
  | |- context [since ?w ?w'] =>
      let H := fresh in
      eassert (H : trace w' = trace w ++ _)
        by (simpl; rewrite <- ?(assoc_L (++)); reflexivity);
      rewrite (since_app _ _ _ H); clear H
  end.

Section RunFacts.
Context {Cluster : Type} `{!KubeClient Cluster}.
Variables (AdminRegistryLabels DockerJSONName : string).
Variable Unmarshal : list Byte.byte → string + Registry.
Variables (username server : string).
Variable NewKubeClient : option string.

Implicit Types (heap : gmap positive Secret) (w : World (Cluster := Cluster))
  (secretsMap : gmap string positive) (items : list Secret).

Local Abbreviation filterSecrets :=
  (Registry.filterSecrets DockerJSONName Unmarshal username server).
Local Abbreviation setupEvents := (Registry.setupEvents AdminRegistryLabels).
Local Abbreviation RunE :=
  (Registry.RunE AdminRegistryLabels DockerJSONName Unmarshal username server
     NewKubeClient).

(** The runs of the command, by what was asked of the API server, with
    the value returned. *)
Lemma RunE_outcome order sched w w' r :
  RunE order sched w = Some (w', r) →
  (updates (since w w') = [] ∧ deletions (since w w') = []
   ∧ cluster w' = cluster w)
  ∨ (∃ sa e,
       since w w' = setupEvents sa (Some e)
       ∧ r = Some ("failed to remove registry secret in default ServiceAccount: "
                     +:+ Error e))
  ∨ (∃ items m h sa w1,
       filterSecrets items = inr (m, h)
       ∧ since w w1 = setupEvents sa None ++ [EvPrintf (msgUpdated sa)]
       ∧ since w w' = since w w1 ++ since w1 w'
       ∧ Forall deleteEvent (since w1 w')
       ∧ bulkDelete m h order sched w1 = Some (w', r)).
Proof.
  unfold Registry.RunE, Registry.RunE_setup. intros Hrun.
  destruct NewKubeClient as [err |].
  { left. injection Hrun as <- <-. unfold since. by rewrite drop_all. }
  destruct (SecretsList _ _ _) as [err | items].
  { left. injection Hrun as <- <-. by since_suffix. }
  destruct (filterSecrets items) as [err | [m h]] eqn:Hfilter.
  { left. injection Hrun as <- <-. by since_suffix. }
  case_bool_decide as Hsize.
  { left. injection Hrun as <- <-. by since_suffix. }
  simpl in Hrun. destruct (ServiceAccountsGet _ _ _) as [err | defaultSa].
  { left. injection Hrun as <- <-. by since_suffix. }
  destruct (ServiceAccountsUpdate _ _ _) as [c [e |]].
  - right. left. injection Hrun as <- <-. exists (desiredSa m defaultSa), e.
    split; [by since_suffix | done].
  - right. right. exists items, m, h, (desiredSa m defaultSa).
    match type of Hrun with
    | Registry.bulkDelete _ _ _ _ ?w0 = _ => set (w1 := w0) in *
    end.
    assert (Hw1 : trace w1 = trace w ++ (setupEvents (desiredSa m defaultSa) None
                    ++ [EvPrintf (msgUpdated (desiredSa m defaultSa))])).
    { subst w1. simpl. by rewrite <- !(assoc_L (++)). }
    exists w1. split; [done |]. split; [by apply since_app |].
    assert (Hbulk := Hrun).
    unfold bulkDelete in Hrun. case_bool_decide as Horder; [| done].
    destruct (exec _ _ _ _) as [s |] eqn:Hexec; [| done]. simpl in Hrun.
    destruct (d_returned s); [| done]. injection Hrun as <- <-.
    pose proof (deleteSecrets_run _ _ _ _ _ _ Horder Hexec) as Hinv.
    split; [| split; [by apply (inv_events _ _ _ _ _ _ Hinv) | done]].
    rewrite (since_app w w1 _ Hw1). apply since_app.
    by rewrite (inv_trace _ _ _ _ _ _ Hinv), Hw1, <- !(assoc_L (++)).
Qed.

(** X7. The command changes the cluster only through the requests it
    shows: a run that sends no ServiceAccount update requests no deletion
    either and leaves the cluster as it found it. *)
Theorem RunE_without_update_changes_nothing order sched w w' r :
  RunE order sched w = Some (w', r) →
  updates (since w w') = [] →
  deletions (since w w') = [] ∧ cluster w' = cluster w.
Proof.
  intros Hrun Hupd.
  destruct (RunE_outcome _ _ _ _ _ Hrun)
    as [(_ & Hdel & Hc)
       | [(sa & e & Hsince & _)
         | (items & m & h & sa & w1 & _ & Hsince1 & Hsince & _)]].
  - done.
  - by rewrite Hsince in Hupd.
  - by rewrite Hsince, Hsince1, updates_app in Hupd.
Qed.

(** X8. When the API server refuses the ServiceAccount update, the command
    stops there: it returns the refusal behind "failed to remove registry
    secret in default ServiceAccount: ", prints nothing and requests no
    deletion. *)
Theorem RunE_update_failure_stops order sched w w' r ns sa e :
  RunE order sched w = Some (w', r) →
  (ns, sa, Some e) ∈ updates (since w w') →
  r = Some ("failed to remove registry secret in default ServiceAccount: "
              +:+ Error e)
  ∧ deletions (since w w') = [] ∧ printed (since w w') = [].
Proof.
  intros Hrun Hin.
  destruct (RunE_outcome _ _ _ _ _ Hrun)
    as [(Hupd & _)
       | [(sa' & e' & Hsince & Hr)
         | (items & m & h & sa' & w1 & _ & Hsince1 & Hsince & Hev & _)]].
  - rewrite Hupd in Hin. by apply elem_of_nil in Hin.
  - rewrite Hsince in *. simpl in Hin. apply list_elem_of_singleton in Hin.
    by injection Hin as -> -> ->.
  - rewrite Hsince, Hsince1, updates_app, (deleteEvent_updates _ Hev) in Hin.
    simpl in Hin. by apply list_elem_of_singleton in Hin.
Qed.

(** X9. A nil return hides no failure: when the command returns nil, every
    ServiceAccount update it sent was accepted and every deletion it
    requested either succeeded or was answered not-found. *)
Theorem RunE_nil_means_no_failure order sched w w' :
  RunE order sched w = Some (w', None) →
  Forall (λ u, u.2 = None) (updates (since w w'))
  ∧ Forall (λ d, hardFailure d.2 = false) (deletions (since w w')).
Proof.
  intros Hrun.
  destruct (RunE_outcome _ _ _ _ _ Hrun)
    as [(Hupd & Hdel & _)
       | [(sa & e & _ & Hr)
         | (items & m & h & sa & w1 & _ & Hsince1 & Hsince & Hev & Hbulk)]].
  - by rewrite Hupd, Hdel.
  - done.
  - rewrite Hsince, Hsince1, updates_app, deletions_app,
      (deleteEvent_updates _ Hev). simpl. split; [by repeat constructor |].
    unfold bulkDelete in Hbulk. case_bool_decide as Horder; [| done].
    destruct (exec _ _ _ _) as [s |] eqn:Hexec; [| done]. simpl in Hbulk.
    destruct (d_returned s) eqn:Hret; [| done].
    destruct (d_errCh s) as [| x ch] eqn:Hch; [| done]. injection Hbulk as <-.
    pose proof (deleteSecrets_run _ _ _ _ _ _ Horder Hexec) as Hinv.
    destruct (Inv_returned _ _ _ _ _ _ Hinv Hret) as [Hexit _].
    rewrite Forall_forall in Hexit. apply Forall_forall.
    intros [[ns n] [e |]] Hd; [| done]. simpl.
    destruct (IsNotFound e) eqn:He; [done |]. exfalso.
    rewrite (inv_calls _ _ _ _ _ _ Hinv) in Hd.
    apply list_elem_of_bind in Hd as (g & Hcalled & Hg).
    pose proof (called_sent _ _ _ _ _ (Hexit _ Hg) Hcalled He) as Hsent.
    pose proof (inv_chan _ _ _ _ _ _ Hinv) as Hchan. rewrite Hch in Hchan.
    apply Permutation_nil_l in Hchan. apply Hsent.
    destruct (sent h g) as [| y ?] eqn:Hy; [done |].
    assert (y ∈ d_gs s ≫= sent h) as Hin.
    { apply list_elem_of_bind. exists g. split; [| done]. rewrite Hy. by left. }
    rewrite <- Hchan in Hin. by apply elem_of_nil in Hin.
Qed.

(** X15. The command can always run to its end: from every state of the
    cluster there are an order of the [range] over the map and a schedule
    of the goroutines with which [RunE] returns; in particular no pointer
    of the map it builds dangles. *)
Theorem RunE_can_complete w :
  ∃ order sched w' r, RunE order sched w = Some (w', r).
Proof.
  unfold Registry.RunE.
  destruct (Registry.RunE_setup _ _ _ _ _ _ w) as [w1 [r | m h]] eqn:Hsetup.
  { by exists [], [], w1, r. }
  assert (Hheap : ∀ k l, m !! k = Some l → is_Some (h !! l)).
  { unfold Registry.RunE_setup in Hsetup.
    destruct NewKubeClient; [done |].
    destruct (SecretsList _ _ _) as [err | items]; [done |].
    destruct (filterSecrets items) as [err | [m' h']] eqn:Hfilter; [done |].
    case_bool_decide; [done |]. simpl in Hsetup.
    destruct (ServiceAccountsGet _ _ _); [done |].
    destruct (ServiceAccountsUpdate _ _ _) as [c [e |]]; [done |].
    injection Hsetup as _ <- <-. intros k l. by eapply filterSecrets_no_dangling. }
  destruct (deleteSecrets_returns h m (map_to_list m) [] w1 _ ltac:(done) Hheap eq_refl)
    as (sched & s & Hexec & Hret).
  exists (map_to_list m), sched. unfold bulkDelete.
  rewrite bool_decide_eq_true_2 by done. simpl in Hexec. rewrite Hexec. simpl.
  rewrite Hret. eauto.
Qed.

End RunFacts.

(** ** The further properties on the test double *)

(** X2 on two entries in their two orders. *)
Lemma rangeAuths_order_witness :
  rangeAuths "alice" "docker.io" "secret-a" secretVar
    [("docker.io", {| Username := "alice" |}); ("quay.io", {| Username := "bob" |})] ∅
  = rangeAuths "alice" "docker.io" "secret-a" secretVar
      [("quay.io", {| Username := "bob" |}); ("docker.io", {| Username := "alice" |})] ∅.
Proof.
  refine (proj1 (rangeAuths_order_irrelevant "alice" "docker.io" "secret-a" secretVar
                   _ _ ∅ _)).
  apply perm_swap.
Defined.

(** X3 on a listing of three secrets of which two match. *)
Lemma filterSecrets_keys_witness :
  ∃ m h,
    filterSecrets ".dockerconfigjson" decoder "alice" "docker.io"
      [secretA; secretC; secretB] = inr (m, h)
    ∧ ("secret-a" ∈ dom m ↔
       ∃ item, item ∈ [secretA; secretC; secretB]
               ∧ matchesFlags ".dockerconfigjson" decoder "alice" "docker.io" item = true
               ∧ Secret_Name item = "secret-a").
Proof.
  destruct (filterSecrets _ _ _ _ _) as [err | [m h]] eqn:Hrun;
    [vm_compute in Hrun; discriminate |].
  exists m, h. split; [reflexivity |].
  exact (proj2 (filterSecrets_keys _ _ _ _ _ _ _ Hrun) "secret-a").
Defined.

(** X4 on a listing whose second secret has no payload. *)
Lemma filterSecrets_first_error_witness :
  filterSecrets ".dockerconfigjson" decoder "alice" "docker.io"
    ([secretA] ++ secretBroken :: [secretB])
  = inl "failed unmarshal secret data '.dockerconfigjson': unexpected end of JSON input".
Proof.
  apply (filterSecrets_first_error ".dockerconfigjson" decoder "alice" "docker.io"
           [secretA] [secretB] secretBroken "unexpected end of JSON input").
  - repeat constructor.
  - reflexivity.
Defined.

(** X5 on the map built from two matching secrets. *)
Lemma filterSecrets_entries_witness :
  secretVar = secretVar
  ∧ ∃ item, last [secretA; secretB] = Some item ∧ aliasedHeap !! secretVar = Some item.
Proof.
  apply (filterSecrets_entries_share_pointer ".dockerconfigjson" decoder
           "alice" "docker.io" [secretA; secretB] aliasedMap aliasedHeap
           "secret-a" secretVar).
  - vm_compute. reflexivity.
  - vm_compute. reflexivity.
Defined.

(** X7 on a cluster whose only stored credential is for another
    registry. *)
Lemma RunE_without_update_witness :
  ∃ w' r,
    removeAlice (fakeCluster [secretC]) [] [] = Some (w', r)
    ∧ deletions (since (fakeWorld (fakeCluster [secretC])) w') = []
    ∧ cluster w' = fakeCluster [secretC].
Proof.
  destruct (removeAlice _ _ _) as [[w' r] |] eqn:Hrun;
    [| vm_compute in Hrun; discriminate].
  exists w', r. split; [reflexivity |].
  apply (RunE_without_update_changes_nothing _ _ _ _ _ _ _ _ _ _ r Hrun).
  vm_compute in Hrun. injection Hrun as <- <-. reflexivity.
Defined.

(** X8 on a cluster that refuses the update. *)
Lemma RunE_update_failure_witness :
  ∃ w',
    removeAlice updateRefusingCluster [] []
    = Some (w', Some "failed to remove registry secret in default ServiceAccount: secrets is forbidden")
    ∧ deletions (since (fakeWorld updateRefusingCluster) w') = [].
Proof.
  destruct (removeAlice _ _ _) as [[w' r] |] eqn:Hrun;
    [| vm_compute in Hrun; discriminate].
  exists w'.
  destruct (RunE_update_failure_stops _ _ _ _ _ _ _ _ _ _ _ "default"
              (desiredSa oneEntry defaultSA) errForbidden Hrun)
    as (-> & Hdel & _).
  - vm_compute in Hrun. injection Hrun as <- <-. vm_compute. by left.
  - split; [reflexivity | exact Hdel].
Defined.

(** X9 on a run that deletes one stored secret. *)
Lemma RunE_nil_witness :
  ∃ w',
    removeAlice (fakeCluster [secretA]) [("secret-a", secretVar)] single
    = Some (w', None)
    ∧ Forall (λ d, hardFailure d.2 = false)
        (deletions (since (fakeWorld (fakeCluster [secretA])) w')).
Proof.
  destruct (removeAlice _ _ _) as [[w' r] |] eqn:Hrun;
    [| vm_compute in Hrun; discriminate].
  assert (r = None) as -> by (vm_compute in Hrun; by injection Hrun as _ <-).
  exists w'. split; [reflexivity |].
  exact (proj2 (RunE_nil_means_no_failure _ _ _ _ _ _ _ _ _ _ Hrun)).
Defined.

(** X16 on the listing [secretA; secretC; secretB]. *)
Lemma RunE_deletes_last_listed_witness :
  ∃ w' r,
    removeAlice (fakeCluster [secretA; secretC; secretB])
      [("secret-a", secretVar); ("secret-b", secretVar)] interleaved = Some (w', r)
    ∧ ∃ items m h item,
        filterSecrets ".dockerconfigjson" decoder "alice" "docker.io" items = inr (m, h)
        ∧ last items = Some item
        ∧ (deletions (since (fakeWorld (fakeCluster [secretA; secretC; secretB])) w')).*1
          = replicate (size m) (Secret_Namespace item, Secret_Name item).
Proof.
  destruct (removeAlice _ _ _) as [[w' r] |] eqn:Hrun;
    [| vm_compute in Hrun; discriminate].
  exists w', r. split; [reflexivity |].
  assert (Hd : deletions (since (fakeWorld (fakeCluster [secretA; secretC; secretB])) w') ≠ []).
  { vm_compute in Hrun. injection Hrun as <- <-. vm_compute. discriminate. }
  destruct (RunE_deletes_last_listed _ _ _ _ _ _ _ _ _ _ _ Hrun Hd)
    as (items & m & h & item & _ & Hf & Hl & Hdel).
  exists items, m, h, item. split; [exact Hf |]. split; [exact Hl | exact Hdel].
Defined.

(** X10 on a run of two goroutines stopped after the two [go] statements. *)
Lemma bulkDelete_can_finish_witness :
  ∃ sched' w' r,
    bulkDelete twoEntries twoHeap
      [("secret-a", 1%positive); ("secret-b", 2%positive)]
      ([ActGo; ActGo] ++ sched') (fakeWorld (fakeCluster [secretA])) = Some (w', r).
Proof.
  destruct (exec twoHeap (size twoEntries) [ActGo; ActGo]
              (deleteSecrets_init (fakeWorld (fakeCluster [secretA])) []
                 [("secret-a", 1%positive); ("secret-b", 2%positive)]))
    as [s |] eqn:Hexec; [| vm_compute in Hexec; discriminate].
  refine (bulkDelete_can_always_finish twoHeap twoEntries _ _ _ s
            twoEntries_order _ Hexec).
  intros k l Hk. unfold twoEntries in Hk.
  apply lookup_insert_Some in Hk as [[_ <-] | [_ Hk]].
  - vm_compute. eauto.
  - apply lookup_singleton_Some in Hk as [_ <-]. vm_compute. eauto.
Defined.

(** X11 on a run of two goroutines: nine picks when complete, and after
    the two [go] statements the run can be continued to the return. *)
Lemma deleteSecrets_step_count_witness :
  (∃ s,
     exec twoHeap (size twoEntries) interleaved
       (deleteSecrets_init (fakeWorld (fakeCluster [secretA])) []
          [("secret-a", 1%positive); ("secret-b", 2%positive)]) = Some s
     ∧ (d_returned s = true ↔ length interleaved = 4 * size twoEntries + 1))
  ∧ ∃ sched' s',
      exec twoHeap (size twoEntries) ([ActGo; ActGo] ++ sched')
        (deleteSecrets_init (fakeWorld (fakeCluster [secretA])) []
           [("secret-a", 1%positive); ("secret-b", 2%positive)]) = Some s'
      ∧ d_returned s' = true
      ∧ length ([ActGo; ActGo] ++ sched') = 4 * size twoEntries + 1.
Proof.
  split.
  - destruct (exec _ _ _ _) as [s |] eqn:Hexec; [| vm_compute in Hexec; discriminate].
    exists s. split; [reflexivity |].
    exact (proj1 (proj2 (deleteSecrets_step_count _ _ _ _ _ _ twoEntries_order Hexec))).
  - destruct (exec twoHeap (size twoEntries) [ActGo; ActGo]
                (deleteSecrets_init (fakeWorld (fakeCluster [secretA])) []
                   [("secret-a", 1%positive); ("secret-b", 2%positive)]))
      as [s |] eqn:Hexec; [| vm_compute in Hexec; discriminate].
    refine (proj2 (proj2 (proj2 (deleteSecrets_step_count twoHeap twoEntries _ _ _ s
                                   twoEntries_order Hexec)) _)).
    intros k l Hk. unfold twoEntries in Hk.
    apply lookup_insert_Some in Hk as [[_ <-] | [_ Hk]].
    + vm_compute. eauto.
    + apply lookup_singleton_Some in Hk as [_ <-]. vm_compute. eauto.
Defined.

(** X12 on the same run: one request for each of the two secrets. *)
Lemma deleteSecrets_one_request_witness :
  ∃ s,
    exec twoHeap (size twoEntries) interleaved
      (deleteSecrets_init (fakeWorld (fakeCluster [secretA])) []
         [("secret-a", 1%positive); ("secret-b", 2%positive)]) = Some s
    ∧ (deletions (since (fakeWorld (fakeCluster [secretA])) (d_world s))).*1
      ≡ₚ [("default", "secret-a"); ("default", "secret-b")].
Proof.
  destruct (exec _ _ _ _) as [s |] eqn:Hexec; [| vm_compute in Hexec; discriminate].
  exists s. split; [reflexivity |].
  assert (Hret : d_returned s = true).
  { vm_compute in Hexec. injection Hexec as <-. reflexivity. }
  exact (proj1 (deleteSecrets_one_request_per_entry _ _ _ _ _ _
                  twoEntries_order Hexec Hret)).
Defined.

(** X13 on the same run: [secret-a] is deleted, [secret-b] is not found. *)
Lemma deleteSecrets_outcomes_witness :
  ∃ s,
    exec twoHeap (size twoEntries) interleaved
      (deleteSecrets_init (fakeWorld (fakeCluster [secretA])) []
         [("secret-a", 1%positive); ("secret-b", 2%positive)]) = Some s
    ∧ printed (since (fakeWorld (fakeCluster [secretA])) (d_world s))
      ≡ₚ deletions (since (fakeWorld (fakeCluster [secretA])) (d_world s))
           ≫= outcomeLine.
Proof.
  destruct (exec _ _ _ _) as [s |] eqn:Hexec; [| vm_compute in Hexec; discriminate].
  exists s. split; [reflexivity |].
  assert (Hret : d_returned s = true).
  { vm_compute in Hexec. injection Hexec as <-. reflexivity. }
  exact (proj1 (deleteSecrets_outcomes_shown _ _ _ _ _ _
                  twoEntries_order Hexec Hret)).
Defined.

(** X14 on a run that finds [secret-a] stored and [secret-b] gone: a
    success and a not-found answer, and nil. *)
Lemma bulkDelete_nil_iff_witness :
  ∃ w',
    bulkDelete twoEntries twoHeap
      [("secret-a", 1%positive); ("secret-b", 2%positive)] interleaved
      (fakeWorld (fakeCluster [secretA])) = Some (w', None)
    ∧ Forall (λ d, hardFailure d.2 = false)
        (deletions (since (fakeWorld (fakeCluster [secretA])) w')).
Proof.
  destruct (bulkDelete _ _ _ _ _) as [[w' r] |] eqn:Hrun;
    [| vm_compute in Hrun; discriminate].
  assert (r = None) as -> by (vm_compute in Hrun; by injection Hrun as _ <-).
  exists w'. split; [reflexivity |].
  by apply (proj1 (bulkDelete_nil_iff _ _ _ _) _ _ _ Hrun).
Defined.
